(** * Community-aware graph layout ([utils/draw.py])

    A shallow embedding of [community_layout] and its three helpers
    ([_position_communities], [_find_between_community_edges],
    [_position_nodes]), with the properties of the layout engine proved
    about it.

    Python dictionaries keep insertion order, and the code iterates over
    them, so a dictionary is an association list with distinct keys.  The
    graph and the partition are objects owned by the caller: they live in
    the [world] the computation runs in, next to the state of NumPy's
    global random generator, which every call of [nx.spring_layout]
    advances.  A missing key raises [KeyError]. *)

From Stdlib Require Import ZArith QArith Qabs List Bool Lia Permutation.
Import ListNotations.

Local Open Scope Z_scope.

(** ** Keys *)

Class EqDec (K : Type) := eq_dec : forall x y : K, {x = y} + {x <> y}.

#[export] Instance Z_EqDec : EqDec Z := Z.eq_dec.

#[export] Instance pair_EqDec {A B : Type} `{EqDec A} `{EqDec B} : EqDec (A * B).
Proof.
  intros [a b] [a' b'].
  destruct (eq_dec a a') as [Ha | Ha].
  - destruct (eq_dec b b') as [Hb | Hb].
    + left. now rewrite Ha, Hb.
    + right. intros E. apply Hb. now inversion E.
  - right. intros E. apply Ha. now inversion E.
Defined.

(** ** Insertion-ordered dictionaries *)

Module Dict.

Definition dict (K V : Type) := list (K * V).

Section Ops.
Context {K V : Type} `{EqDec K}.

Definition empty : dict K V := [].

(** [d.get(k)]: the value stored under [k], if any. *)
Fixpoint get (d : dict K V) (k : K) : option V :=
  match d with
  | [] => None
  | (k', v) :: d' => if eq_dec k k' then Some v else get d' k
  end.

(** [d[k] = v]: an existing key keeps its place, a new one goes last. *)
Fixpoint set (d : dict K V) (k : K) (v : V) : dict K V :=
  match d with
  | [] => [(k, v)]
  | (k', v') :: d' =>
      if eq_dec k k' then (k', v) :: d' else (k', v') :: set d' k v
  end.

Definition keys (d : dict K V) : list K := map fst d.
Definition values (d : dict K V) : list V := map snd d.
Definition items (d : dict K V) : list (K * V) := d.

(** [d.update(other)] *)
Definition update (d other : dict K V) : dict K V :=
  fold_left (fun acc kv => set acc (fst kv) (snd kv)) (items other) d.

Definition mem (k : K) (l : list K) : bool :=
  if in_dec eq_dec k l then true else false.
End Ops.

End Dict.

Import Dict.

(** ** Graphs, as NetworkX presents them

    [nodes] is what iterating the graph yields, [edge_data] what
    [g.edges(data='weight')] yields: every edge once, with its weight
    attribute when it has one.  One record serves [nx.Graph] and
    [nx.DiGraph]. *)

Record Graph := mkGraph {
  directed : bool;
  nodes : list Z;
  edge_data : list (Z * Z * option nat) }.

(** [g.edges()] *)
Definition edges (g : Graph) : list (Z * Z) := map fst (edge_data g).

(** [nx.DiGraph()] *)
Definition DiGraph : Graph := mkGraph true [] [].

Definition add_node (g : Graph) (n : Z) : Graph :=
  if mem n (nodes g) then g
  else mkGraph (directed g) (nodes g ++ [n]) (edge_data g).

Definition add_nodes_from (g : Graph) (ns : list Z) : Graph :=
  fold_left add_node ns g.

(** Whether [(u, v)] names the edge stored as [(a, b)]. *)
Definition same_edge (dir : bool) (u v a b : Z) : bool :=
  if eq_dec (u, v) (a, b) then true
  else if dir then false
  else if eq_dec (u, v) (b, a) then true else false.

Fixpoint set_weight (dir : bool) (es : list (Z * Z * option nat))
    (u v : Z) (w : nat) : list (Z * Z * option nat) :=
  match es with
  | [] => [(u, v, Some w)]
  | (a, b, x) :: es' =>
      if same_edge dir u v a b then (a, b, Some w) :: es'
      else (a, b, x) :: set_weight dir es' u v w
  end.

(** [g.add_edge(u, v, weight=w)] *)
Definition add_edge (g : Graph) (u v : Z) (w : nat) : Graph :=
  let g := add_node (add_node g u) v in
  mkGraph (directed g) (nodes g) (set_weight (directed g) (edge_data g) u v w).

(** [g.subgraph(ns)]: the view induced by those of [ns] that are nodes
    of [g], with the edges of [g] between them.  NetworkX enumerates the
    nodes of a view in the graph's order, or, when the kept nodes are
    fewer than half the graph's, in the order of the set made of [ns];
    the model keeps the graph's order.  The statements below either speak
    of which nodes and edges a view has, or compare the views that graphs
    with one and the same list of nodes give for one and the same list
    [ns], which NetworkX enumerates alike; none takes the model's order
    for the order NetworkX hands the solver. *)
Definition subgraph (g : Graph) (ns : list Z) : Graph :=
  mkGraph (directed g)
    (filter (fun n => mem n ns) (nodes g))
    (filter (fun e => mem (fst (fst e)) ns && mem (snd (fst e)) ns)
       (edge_data g)).

(** [set(l)].  Python promises no order of enumeration for a set; the
    model enumerates by first occurrence.  The proofs use which elements
    the set has, never their order. *)
Fixpoint py_set (l : list Z) : list Z :=
  match l with
  | [] => []
  | x :: l' => x :: filter (fun y => negb (mem y [x])) (py_set l')
  end.

(** ** NumPy and the force-directed solver

    The layout code is written against two libraries.  Their part is a
    parameter of the development: the float64 scalars with their
    addition, NumPy's global generator, and [nx.spring_layout], which
    reads a graph and a scale, draws from the generator and returns a
    dictionary of two-dimensional positions. *)

Record Backend := mkBackend {
  (** a float64 *)
  num : Type;
  (** [x + y] *)
  fadd : num -> num -> num;
  (** neither NaN nor infinite *)
  is_finite : num -> Prop;
  (** [within b x]: a number of magnitude at most [b] *)
  within : Q -> num -> Prop;
  (** the state of the global generator *)
  rng : Type;
  (** the state [np.random.seed(k)] puts it in *)
  seed : Z -> rng;
  (** [nx.spring_layout(G, scale=scale)], from a state of the generator:
      the positions, and the state left *)
  spring_layout : Graph -> Q -> rng -> dict Z (num * num) * rng }.

(** A position: a NumPy array of two floats. *)
Definition vec (B : Backend) : Type := (num B * num B)%type.

(** [a + b] on arrays. *)
Definition vadd {B : Backend} (a b : vec B) : vec B :=
  (fadd B (fst a) (fst b), fadd B (snd a) (snd b)).

Definition vfinite {B : Backend} (a : vec B) : Prop :=
  is_finite B (fst a) /\ is_finite B (snd a).

Definition vwithin {B : Backend} (s : Q) (a : vec B) : Prop :=
  within B s (fst a) /\ within B s (snd a).

(** What the code relies on from the solver: one position per node of
    the graph it was given, in the graph's order ... *)
Definition layout_keys (B : Backend) : Prop :=
  forall G sc s, keys (fst (spring_layout B G sc s)) = nodes G.

(** ... with a spread bounded by the scale. *)
Definition layout_bounded (B : Backend) : Prop :=
  forall G sc s n v,
    (0 <= sc)%Q ->
    get (fst (spring_layout B G sc s)) n = Some v -> vwithin sc v.

(** What it relies on from float64: a bounded value is finite, and the
    sum of two values bounded by integers is bounded by their sum as long
    as that sum is exactly representable. *)
Definition float_bounds (B : Backend) : Prop :=
  (forall b x, within B b x -> is_finite B x) /\
  (forall (a b : Z) x y,
      (0 <= a)%Z -> (0 <= b)%Z -> (a + b <= 2 ^ 53)%Z ->
      within B (inject_Z a) x -> within B (inject_Z b) y ->
      within B (inject_Z (a + b)) (fadd B x y)).

(** ** Exceptions and the world *)

Inductive exn := KeyError (k : Z).

Inductive result (A : Type) :=
| Ok (a : A)
| Raise (e : exn).
Arguments Ok {A} a.
Arguments Raise {A} e.

Section Layout.
Variable B : Backend.

Record world := mkWorld {
  w_graph : Graph;
  w_partition : dict Z Z;
  w_rng : rng B }.

Definition M (A : Type) : Type := world -> result A * world.

Definition ret {A} (a : A) : M A := fun w => (Ok a, w).

Definition raise {A} (e : exn) : M A := fun w => (Raise e, w).

Definition bind {A C} (m : M A) (k : A -> M C) : M C :=
  fun w =>
    match m w with
    | (Ok a, w') => k a w'
    | (Raise e, w') => (Raise e, w')
    end.

Notation "x <- m ;; k" := (bind m (fun x => k))
  (at level 61, m at next level, right associativity).

(** [for x in l: acc = body(x, acc)] *)
Fixpoint for_each {A S} (l : list A) (body : A -> S -> M S) (acc : S) : M S :=
  match l with
  | [] => ret acc
  | x :: l' => acc' <- body x acc ;; for_each l' body acc'
  end.

(** *** What the code does with the caller's objects: it reads them. *)

Definition g_nodes : M (list Z) := fun w => (Ok (nodes (w_graph w)), w).

Definition g_edges : M (list (Z * Z)) := fun w => (Ok (edges (w_graph w)), w).

Definition g_subgraph (ns : list Z) : M Graph :=
  fun w => (Ok (subgraph (w_graph w) ns), w).

Definition partition_items : M (list (Z * Z)) :=
  fun w => (Ok (items (w_partition w)), w).

Definition partition_values : M (list Z) :=
  fun w => (Ok (values (w_partition w)), w).

(** [partition[k]] *)
Definition partition_getitem (k : Z) : M Z :=
  fun w =>
    match get (w_partition w) k with
    | Some c => (Ok c, w)
    | None => (Raise (KeyError k), w)
    end.

(** [d[k]] on a dictionary local to the call. *)
Definition getitem {V} (d : dict Z V) (k : Z) : M V :=
  match get d k with
  | Some v => ret v
  | None => raise (KeyError k)
  end.

(** [nx.spring_layout(G, scale=scale)]: draws from the global generator. *)
Definition nx_spring_layout (G : Graph) (scale : Q) : M (dict Z (vec B)) :=
  fun w =>
    let (pos, r) := spring_layout B G scale (w_rng w) in
    (Ok pos, mkWorld (w_graph w) (w_partition w) r).

(** [np.random.seed(k)] *)
Definition np_random_seed (k : Z) : M unit :=
  fun w => (Ok tt, mkWorld (w_graph w) (w_partition w) (seed B k)).

(** *** The program *)

Definition _find_between_community_edges : M (dict (Z * Z) (list (Z * Z))) :=
  es <- g_edges ;;
  for_each es
    (fun '(ni, nj) edges =>
       ci <- partition_getitem ni ;;
       cj <- partition_getitem nj ;;
       if eq_dec ci cj then ret edges
       else match get edges (ci, cj) with
            | Some l => ret (set edges (ci, cj) (l ++ [(ni, nj)]))
            | None => ret (set edges (ci, cj) [(ni, nj)])
            end)
    empty.

(** The weighted graph over the communities. *)
Definition hypergraph_of (communities : list Z)
    (between_community_edges : dict (Z * Z) (list (Z * Z))) : Graph :=
  let hypergraph := DiGraph in
  let hypergraph := add_nodes_from hypergraph communities in
  fold_left
    (fun h '((ci, cj), edges) => add_edge h ci cj (length edges))
    (items between_community_edges) hypergraph.

Definition _position_communities (scale : Q) : M (dict Z (vec B)) :=
  between_community_edges <- _find_between_community_edges ;;
  vs <- partition_values ;;
  let communities := py_set vs in
  let hypergraph := hypergraph_of communities between_community_edges in
  pos_communities <- nx_spring_layout hypergraph scale ;;
  its <- partition_items ;;
  for_each its
    (fun '(node, community) pos =>
       a <- getitem pos_communities community ;;
       ret (set pos node a))
    empty.

(** The first loop of [_position_nodes]: members of each community, in
    the partition's order. *)
Definition group_by_community (its : list (Z * Z)) : dict Z (list Z) :=
  fold_left
    (fun communities '(node, community) =>
       match get communities community with
       | Some l => set communities community (l ++ [node])
       | None => set communities community [node]
       end)
    its empty.

Definition _position_nodes (scale : Q) : M (dict Z (vec B)) :=
  its <- partition_items ;;
  let communities := group_by_community its in
  for_each (items communities)
    (fun '(ci, nodes) pos =>
       subgraph <- g_subgraph nodes ;;
       pos_subgraph <- nx_spring_layout subgraph scale ;;
       ret (update pos pos_subgraph))
    empty.

Definition community_layout : M (dict Z (vec B)) :=
  pos_communities <- _position_communities 3 ;;
  pos_nodes <- _position_nodes 1 ;;
  ns <- g_nodes ;;
  for_each ns
    (fun node pos =>
       a <- getitem pos_communities node ;;
       o <- getitem pos_nodes node ;;
       ret (set pos node (vadd a o)))
    empty.

End Layout.

Arguments ret {B A} a.
Arguments raise {B A} e.
Arguments bind {B A C} m k.
Arguments for_each {B A S} l body acc.
Arguments getitem {B V} d k.
Arguments mkWorld {B} w_graph w_partition w_rng.
Arguments w_graph {B} w.
Arguments w_partition {B} w.
Arguments w_rng {B} w.

(** ** Vocabulary of the statements *)

(** A NetworkX graph lists a node once, and an edge joins two of its
    nodes. *)
Definition wf_graph (g : Graph) : Prop :=
  NoDup (nodes g) /\
  forall u v, In (u, v) (edges g) -> In u (nodes g) /\ In v (nodes g).

(** A dictionary holds a key once. *)
Definition wf_dict {K V : Type} (d : dict K V) : Prop := NoDup (keys d).

(** The partition assigns a community to every node of the graph. *)
Definition covers (p : dict Z Z) (g : Graph) : Prop :=
  forall n, In n (nodes g) -> In n (keys p).

(** The edge [e] leaves community [ci] and enters community [cj]. *)
Definition crosses (p : dict Z Z) (ci cj : Z) (e : Z * Z) : bool :=
  match get p (fst e), get p (snd e) with
  | Some a, Some b => if eq_dec (a, b) (ci, cj) then true else false
  | _, _ => false
  end.

Definition crossing_edges (p : dict Z Z) (es : list (Z * Z)) (ci cj : Z)
  : list (Z * Z) :=
  filter (crosses p ci cj) es.

(** The members of community [c], in the partition's order. *)
Definition members (p : dict Z Z) (c : Z) : list Z :=
  map fst (filter (fun kv => if eq_dec (snd kv) c then true else false) p).

(** The partition knows both ends of the edge [e]. *)
Definition covered (p : dict Z Z) (e : Z * Z) : bool :=
  match get p (fst e), get p (snd e) with
  | Some _, Some _ => true
  | _, _ => false
  end.

(** The edge [e] joins two different communities. *)
Definition inter (p : dict Z Z) (e : Z * Z) : bool :=
  match get p (fst e), get p (snd e) with
  | Some a, Some b => if eq_dec a b then false else true
  | _, _ => false
  end.

(** The edge [e] stays inside one community. *)
Definition intra (p : dict Z Z) (e : Z * Z) : bool :=
  match get p (fst e), get p (snd e) with
  | Some a, Some b => if eq_dec a b then true else false
  | _, _ => false
  end.

(** ** Vocabulary of the proofs *)

(** What the finder's dictionary holds once the edges [es] are read. *)
Definition between_spec (p : dict Z Z) (es : list (Z * Z))
    (d : dict (Z * Z) (list (Z * Z))) : Prop :=
  wf_dict d /\
  forall ci cj,
    get d (ci, cj) =
      if eq_dec ci cj then None
      else match crossing_edges p es ci cj with
           | [] => None
           | l => Some l
           end.

(** One weighted edge of the meta-graph per entry of the finder's
    dictionary. *)
Definition weighted (kv : Z * Z * list (Z * Z)) : Z * Z * option nat :=
  (fst kv, Some (length (snd kv))).

(** The entries of an ordered dictionary that come before key [c]. *)
Fixpoint before {V : Type} (c : Z) (cs : list (Z * V)) : list (Z * V) :=
  match cs with
  | [] => []
  | (c', v) :: cs' => if eq_dec c c' then [] else (c', v) :: before c cs'
  end.

(** What a turn of the finder's loop does to its dictionary when the
    ends of the edge [e] are in communities [a] and [b]. *)
Definition between_step (a b : Z) (e : Z * Z)
    (edges : dict (Z * Z) (list (Z * Z))) : dict (Z * Z) (list (Z * Z)) :=
  if eq_dec a b then edges
  else match get edges (a, b) with
       | Some l => set edges (a, b) (l ++ [e])
       | None => set edges (a, b) [e]
       end.

(** The finder's loop over edges whose ends the partition knows. *)
Definition between_fold (p : dict Z Z) (es : list (Z * Z))
    (edges : dict (Z * Z) (list (Z * Z))) : dict (Z * Z) (list (Z * Z)) :=
  fold_left
    (fun edges e =>
       match get p (fst e), get p (snd e) with
       | Some a, Some b => between_step a b e edges
       | _, _ => edges
       end)
    es edges.

Section Specs.
Variable B : Backend.

(** A turn of the finder's loop. *)
Definition between_turn
  : Z * Z -> dict (Z * Z) (list (Z * Z)) -> M B (dict (Z * Z) (list (Z * Z))) :=
  fun '(ni, nj) edges =>
    bind (partition_getitem B ni) (fun ci =>
    bind (partition_getitem B nj) (fun cj =>
    if eq_dec ci cj then ret edges
    else match get edges (ci, cj) with
         | Some l => ret (set edges (ci, cj) (l ++ [(ni, nj)]))
         | None => ret (set edges (ci, cj) [(ni, nj)])
         end)).

(** The last loop of [_position_communities], which reads nothing of
    the world: the anchors of the nodes, or the first community without
    a position. *)
Fixpoint anchor_fold (pos_communities : dict Z (vec B)) (its : list (Z * Z))
    (pos : dict Z (vec B)) : result (dict Z (vec B)) :=
  match its with
  | [] => Ok pos
  | (node, community) :: its' =>
      match get pos_communities community with
      | Some a => anchor_fold pos_communities its' (set pos node a)
      | None => Raise (KeyError community)
      end
  end.

(** A turn of the last loop of [_position_communities]. *)
Definition anchor_turn (pos_communities : dict Z (vec B))
  : Z * Z -> dict Z (vec B) -> M B (dict Z (vec B)) :=
  fun '(node, community) pos =>
    bind (getitem pos_communities community) (fun a => ret (set pos node a)).

(** The anchors the solver gives the communities of [p], and the
    generator it leaves behind. *)
Definition anchors_of (p : dict Z Z) (d : dict (Z * Z) (list (Z * Z)))
    (sc : Q) (s : rng B) : dict Z (vec B) * rng B :=
  spring_layout B (hypergraph_of (py_set (values p)) d) sc s.

(** The second loop of [_position_nodes], as a function of the
    generator's state: the positions gathered and the state left. *)
Fixpoint layout_each (g : Graph) (sc : Q) (cs : list (Z * list Z))
    (pos : dict Z (vec B)) (s : rng B) : dict Z (vec B) * rng B :=
  match cs with
  | [] => (pos, s)
  | (ci, ns) :: cs' =>
      let out := spring_layout B (subgraph g ns) sc s in
      layout_each g sc cs' (update pos (fst out)) (snd out)
  end.

(** The generator's state when the solver is called for community [c]. *)
Definition rng_at (g : Graph) (p : dict Z Z) (sc : Q) (s : rng B) (c : Z)
  : rng B :=
  snd (layout_each g sc (before c (group_by_community p)) empty s).

(** The solver's answer for community [c]. *)
Definition offsets_of (g : Graph) (p : dict Z Z) (sc : Q) (s : rng B) (c : Z)
  : dict Z (vec B) :=
  fst (spring_layout B (subgraph g (members p c)) sc (rng_at g p sc s c)).

(** [m] leaves the caller's graph and partition as they were. *)
Definition preserves {A} (m : M B A) : Prop :=
  forall w, w_graph (snd (m w)) = w_graph w /\
            w_partition (snd (m w)) = w_partition w.

(** [m] leaves the whole world as it was. *)
Definition reads {A} (m : M B A) : Prop := forall w, snd (m w) = w.
End Specs.

Arguments preserves {B A} m.
Arguments reads {B A} m.

(** ** A backend to run the program on

    Scalars are rationals or "not a number"; the generator is a counter;
    the solver puts every node of the graph it is given on the horizontal
    axis, at distance [scale] from the origin, on the side the counter
    and the node say. *)

Module Toy.

Definition tnum : Type := option Q.

Definition tadd (x y : tnum) : tnum :=
  match x, y with
  | Some a, Some b => Some (a + b)%Q
  | _, _ => None
  end.

Definition tfinite (x : tnum) : Prop := x <> None.

Definition twithin (b : Q) (x : tnum) : Prop :=
  match x with
  | Some a => (Qabs a <= b)%Q
  | None => False
  end.

Definition place (scale : Q) (s : Z) (n : Z) : tnum * tnum :=
  (Some (if Z.even (s + n) then scale else - scale)%Q, Some 0%Q).

Definition tlayout (G : Graph) (scale : Q) (s : Z) : dict Z (tnum * tnum) * Z :=
  (map (fun n => (n, place scale s n)) (nodes G), s + Z.of_nat (length (nodes G))).

Definition backend : Backend :=
  mkBackend tnum tadd tfinite twithin Z (fun k => k) tlayout.

End Toy.

(** A second backend, whose solver places a node by its rank in the
    enumeration of the graph it is given, as a solver does that draws one
    random row per node. *)

Module Ranked.

Fixpoint rank (scale : Q) (s : Z) (ns : list Z) : dict Z (Toy.tnum * Toy.tnum) :=
  match ns with
  | [] => []
  | n :: ns' =>
      (n, (Some (if Z.even s then scale else - scale)%Q, Some 0%Q))
        :: rank scale (s + 1) ns'
  end.

Definition rlayout (G : Graph) (scale : Q) (s : Z)
  : dict Z (Toy.tnum * Toy.tnum) * Z :=
  (rank scale s (nodes G), s + Z.of_nat (length (nodes G))).

Definition backend : Backend :=
  mkBackend Toy.tnum Toy.tadd Toy.tfinite Toy.twithin Z (fun k => k) rlayout.

End Ranked.

(** ** An input to run the program on

    A graph of five nodes, node 5 isolated, under a partition into three
    communities that also names a node 9 the graph does not have; run on
    the toy backend. *)

Module Example.

Definition g : Graph :=
  mkGraph false [1; 2; 3; 4; 5] [(1, 2, None); (2, 3, None); (3, 4, None)].

Definition p : dict Z Z := [(1, 10); (2, 10); (3, 21); (4, 21); (5, 7); (9, 21)].

(** The partition without node 5. *)
Definition p_short : dict Z Z := [(1, 10); (2, 10); (3, 21); (4, 21)].

(** The partition without node 3, an end of two edges. *)
Definition p_gap : dict Z Z := [(1, 10); (2, 10); (4, 21); (5, 7)].

(** Everything in one community. *)
Definition p_one : dict Z Z := [(1, 10); (2, 10); (3, 10); (4, 10); (5, 10)].









(** The graph without the edges inside a community. *)
Definition g_inter : Graph := mkGraph false [1; 2; 3; 4; 5] [(2, 3, None)].

(** The graph without the edges between communities. *)
Definition g_intra : Graph :=
  mkGraph false [1; 2; 3; 4; 5] [(1, 2, None); (3, 4, None)].

(** One node, alone in its community. *)
Definition g_single : Graph := mkGraph false [7] [].

Definition p_single : dict Z Z := [(7, 0)].

End Example.

(** ** Dictionaries: the facts used below *)

Section DictFacts.
Context {K V : Type} `{EqDec K}.
Implicit Types (d : dict K V) (k : K) (v : V).

Lemma get_set_same d k v : get (set d k v) k = Some v.
Proof.
  induction d as [| [k' v'] d IH]; simpl.
  - destruct (eq_dec k k); congruence.
  - destruct (eq_dec k k') as [E | E]; simpl.
    + destruct (eq_dec k k'); congruence.
    + destruct (eq_dec k k'); congruence.
Qed.

Lemma get_set_other d k k' v : k <> k' -> get (set d k v) k' = get d k'.
Proof.
  intros N. induction d as [| [k0 v0] d IH]; simpl.
  - destruct (eq_dec k' k); congruence.
  - destruct (eq_dec k k0) as [E | E]; simpl.
    + subst. destruct (eq_dec k' k0); congruence.
    + destruct (eq_dec k' k0); congruence.
Qed.

Lemma get_None d k : get d k = None <-> ~ In k (keys d).
Proof.
  induction d as [| [k' v'] d IH]; simpl.
  - tauto.
  - destruct (eq_dec k k') as [E | E].
    + split; [discriminate | intros N; exfalso; apply N; left; congruence].
    + rewrite IH. split; intros N.
      * intros [E' | I]; [congruence | tauto].
      * tauto.
Qed.

Lemma get_Some_keys d k v : get d k = Some v -> In k (keys d).
Proof.
  intros G. destruct (in_dec eq_dec k (keys d)) as [I | N]; [exact I |].
  apply get_None in N. congruence.
Qed.

Lemma keys_get d k : In k (keys d) -> exists v, get d k = Some v.
Proof.
  intros I. destruct (get d k) as [v |] eqn:G; [now exists v |].
  apply get_None in G. tauto.
Qed.

Lemma get_Some_In d k v : get d k = Some v -> In (k, v) d.
Proof.
  induction d as [| [k' v'] d IH]; simpl; [discriminate |].
  destruct (eq_dec k k') as [E | E].
  - intros [= <-]. left. congruence.
  - intros G. right. auto.
Qed.

Lemma In_get d k v : NoDup (keys d) -> In (k, v) d -> get d k = Some v.
Proof.
  induction d as [| [k' v'] d IH]; simpl; [tauto |].
  intros ND [E | I].
  - inversion E; subst. destruct (eq_dec k k); congruence.
  - inversion ND as [| ? ? N ND']; subst.
    destruct (eq_dec k k') as [E | E].
    + subst. exfalso. apply N. change (In (fst (k', v)) (map fst d)).
      now apply in_map.
    + auto.
Qed.

Lemma keys_set_old d k v : In k (keys d) -> keys (set d k v) = keys d.
Proof.
  induction d as [| [k' v'] d IH]; simpl; [tauto |].
  intros I. destruct (eq_dec k k') as [E | E]; simpl; [reflexivity |].
  f_equal. apply IH. destruct I; congruence.
Qed.

Lemma keys_set_new d k v : ~ In k (keys d) -> keys (set d k v) = keys d ++ [k].
Proof.
  induction d as [| [k' v'] d IH]; simpl; [reflexivity |].
  intros N. destruct (eq_dec k k') as [E | E]; simpl.
  - exfalso. apply N. left. congruence.
  - f_equal. apply IH. tauto.
Qed.

Lemma keys_set_In d k v k' : In k' (keys (set d k v)) <-> k' = k \/ In k' (keys d).
Proof.
  destruct (in_dec eq_dec k (keys d)) as [I | N].
  - rewrite keys_set_old by exact I.
    split; [tauto | intros [-> | ?]; assumption].
  - rewrite keys_set_new by exact N.
    rewrite in_app_iff. simpl. intuition congruence.
Qed.

Lemma NoDup_keys_set d k v : NoDup (keys d) -> NoDup (keys (set d k v)).
Proof.
  intros ND. destruct (in_dec eq_dec k (keys d)) as [I | N].
  - now rewrite keys_set_old.
  - rewrite keys_set_new by exact N.
    apply NoDup_app; [exact ND | repeat constructor; simpl; tauto |].
    intros x Hx [<- | []]. tauto.
Qed.

Lemma keys_update_In d o k :
  In k (keys (update d o)) <-> In k (keys d) \/ In k (keys o).
Proof.
  unfold update, items. revert d.
  induction o as [| [k' v'] o IH]; intros d; simpl.
  - tauto.
  - rewrite IH, keys_set_In. intuition congruence.
Qed.

Lemma get_update_notin d o k : ~ In k (keys o) -> get (update d o) k = get d k.
Proof.
  unfold update, items. revert d.
  induction o as [| [k' v'] o IH]; intros d N; simpl in *.
  - reflexivity.
  - rewrite IH by tauto. apply get_set_other. intros E. apply N. now left.
Qed.

Lemma get_update_in d o k :
  NoDup (keys o) -> In k (keys o) -> get (update d o) k = get o k.
Proof.
  unfold update, items. revert d.
  induction o as [| [k' v'] o IH]; intros d ND I; simpl in *.
  - tauto.
  - inversion ND as [| ? ? N ND']; subst.
    destruct (eq_dec k k') as [E | E].
    + subst. pose proof (get_update_notin (set d k' v') o k' N) as E.
      unfold update, items in E. rewrite E. apply get_set_same.
    + apply IH; [exact ND' | destruct I; congruence].
Qed.

Lemma NoDup_keys_update d o : NoDup (keys d) -> NoDup (keys (update d o)).
Proof.
  unfold update, items. revert d.
  induction o as [| [k' v'] o IH]; intros d ND; simpl.
  - exact ND.
  - apply IH. now apply NoDup_keys_set.
Qed.

Lemma mem_true (k : K) (l : list K) : mem k l = true <-> In k l.
Proof.
  unfold mem. destruct (in_dec eq_dec k l); split; intros; congruence || assumption.
Qed.

Lemma mem_false (k : K) (l : list K) : mem k l = false <-> ~ In k l.
Proof.
  unfold mem. destruct (in_dec eq_dec k l); split; intros; congruence || tauto.
Qed.
End DictFacts.

(** ** Loops *)

Section Loops.
Variable B : Backend.

Lemma for_each_inv {A S} (I : list A -> S -> world B -> Prop)
    (body : A -> S -> M B S) (whole : list A) :
  (forall done x rest acc w,
      done ++ x :: rest = whole -> I done acc w ->
      exists acc' w', body x acc w = (Ok acc', w') /\ I (done ++ [x]) acc' w') ->
  forall l done acc w,
    done ++ l = whole -> I done acc w ->
    exists acc' w', for_each l body acc w = (Ok acc', w') /\ I whole acc' w'.
Proof.
  intros Step l. induction l as [| x l IH]; intros done acc w E HI.
  - rewrite app_nil_r in E. subst. simpl. now exists acc, w.
  - destruct (Step done x l acc w E HI) as (acc1 & w1 & R & HI1).
    destruct (IH (done ++ [x]) acc1 w1) as (acc2 & w2 & R2 & HI2).
    + now rewrite <- app_assoc.
    + exact HI1.
    + exists acc2, w2. split; [| exact HI2].
      simpl. unfold bind. now rewrite R.
Qed.

(** A loop whose body raises at some element raises. *)
Lemma for_each_raises {A S} (body : A -> S -> M B S) (x : A) :
  (forall acc w, exists e w', body x acc w = (Raise e, w')) ->
  forall l acc w, In x l ->
    exists e w', for_each l body acc w = (Raise e, w').
Proof.
  intros Hx l. induction l as [| y l IH]; intros acc w I; [destruct I |].
  simpl. unfold bind.
  destruct (body y acc w) as [[acc1 | e] w1] eqn:R.
  - destruct I as [-> | I].
    + destruct (Hx acc w) as (e & w' & R'). congruence.
    + now apply IH.
  - now exists e, w1.
Qed.
End Loops.

(** ** The between-community edge finder *)

Section Between.
Variable B : Backend.

Lemma snoc_Some {A} (l : list A) (x : A) :
  match l ++ [x] with [] => None | l' => Some l' end = Some (l ++ [x]).
Proof. destruct l; reflexivity. Qed.

Lemma crossing_edges_snoc p es e ci cj :
  crossing_edges p (es ++ [e]) ci cj =
    crossing_edges p es ci cj ++ (if crosses p ci cj e then [e] else []).
Proof. unfold crossing_edges. rewrite filter_app. reflexivity. Qed.

Lemma crosses_at p ni nj a b ci cj :
  get p ni = Some a -> get p nj = Some b ->
  crosses p ci cj (ni, nj) = if eq_dec (a, b) (ci, cj) then true else false.
Proof. intros Ha Hb. unfold crosses. simpl. now rewrite Ha, Hb. Qed.

Lemma find_between_step p done ni nj a b d :
  get p ni = Some a -> get p nj = Some b -> a <> b ->
  between_spec p done d ->
  between_spec p (done ++ [(ni, nj)])
    (match get d (a, b) with
     | Some l => set d (a, b) (l ++ [(ni, nj)])
     | None => set d (a, b) [(ni, nj)]
     end).
Proof.
  intros Ha Hb Nab [ND Sp]. split.
  - destruct (get d (a, b)); now apply NoDup_keys_set.
  - intros ci cj. rewrite crossing_edges_snoc, (crosses_at p ni nj a b) by assumption.
    destruct (eq_dec (a, b) (ci, cj)) as [E | E].
    + inversion E; subst ci cj. pose proof (Sp a b) as Sab.
      destruct (eq_dec a b) as [? | _]; [contradiction |].
      destruct (crossing_edges p done a b) as [| e0 l0] eqn:C.
      * rewrite Sab, get_set_same. reflexivity.
      * rewrite Sab, get_set_same. reflexivity.
    + rewrite app_nil_r, <- Sp.
      destruct (get d (a, b)); now apply get_set_other.
Qed.

Lemma find_between_same p done ni nj a d :
  get p ni = Some a -> get p nj = Some a ->
  between_spec p done d -> between_spec p (done ++ [(ni, nj)]) d.
Proof.
  intros Ha Hb [ND Sp]. split; [exact ND |].
  intros ci cj. rewrite crossing_edges_snoc, (crosses_at p ni nj a a) by assumption.
  rewrite Sp. destruct (eq_dec ci cj) as [E | E]; [reflexivity |].
  destruct (eq_dec (a, a) (ci, cj)) as [E' | _].
  - inversion E'; congruence.
  - now rewrite app_nil_r.
Qed.

Lemma find_between_ok (w : world B) :
  (forall u v, In (u, v) (edges (w_graph w)) ->
               In u (keys (w_partition w)) /\ In v (keys (w_partition w))) ->
  exists d,
    _find_between_community_edges B w = (Ok d, w) /\
    between_spec (w_partition w) (edges (w_graph w)) d.
Proof.
  intros Tot. unfold _find_between_community_edges, bind, g_edges.
  set (p := w_partition w) in *. set (es := edges (w_graph w)) in *.
  match goal with
  | |- context [for_each _ ?body _ _] =>
      pose proof (for_each_inv B
                    (fun done d w' => w' = w /\ between_spec p done d)
                    body es) as Inv
  end.
  destruct Inv with (l := es) (done := @nil (Z * Z))
                    (acc := @empty (Z * Z) (list (Z * Z))) (w := w)
    as (d & w' & R & -> & Sp).
  - intros done [ni nj] rest d w1 E [-> Sp].
    assert (I : In (ni, nj) es) by (rewrite <- E; apply in_elt).
    destruct (Tot ni nj I) as [Ii Ij].
    apply keys_get in Ii. apply keys_get in Ij.
    destruct Ii as [a Ha]. destruct Ij as [b Hb]. fold p in Ha, Hb.
    unfold bind, partition_getitem. fold p. rewrite Ha. cbv beta iota.
    fold p. rewrite Hb. cbv beta iota.
    destruct (eq_dec a b) as [<- | N].
    + exists d, w. split; [reflexivity |]. split; [reflexivity |].
      now apply find_between_same with (a := a).
    + pose proof (find_between_step p done ni nj a b d Ha Hb N Sp) as Sp'.
      destruct (get d (a, b)); eexists; exists w; (split; [reflexivity |]);
        (split; [reflexivity | exact Sp']).
  - reflexivity.
  - split; [reflexivity |]. split; [constructor |].
    intros ci cj. simpl. now destruct (eq_dec ci cj).
  - exists d. split; [exact R | exact Sp].
Qed.
End Between.

(** ** The meta-graph *)

Section Hypergraph.

Lemma add_node_nodes g n c :
  In c (nodes (add_node g n)) <-> In c (nodes g) \/ c = n.
Proof.
  unfold add_node. destruct (mem n (nodes g)) eqn:E; simpl.
  - apply mem_true in E. intuition congruence.
  - rewrite in_app_iff. simpl. intuition congruence.
Qed.

Lemma add_node_directed g n : directed (add_node g n) = directed g.
Proof. unfold add_node. now destruct (mem n (nodes g)). Qed.

Lemma add_node_edge_data g n : edge_data (add_node g n) = edge_data g.
Proof. unfold add_node. now destruct (mem n (nodes g)). Qed.

Lemma add_nodes_from_nodes ns : forall g c,
  In c (nodes (add_nodes_from g ns)) <-> In c (nodes g) \/ In c ns.
Proof.
  unfold add_nodes_from.
  induction ns as [| n ns IH]; intros g c; simpl; [tauto |].
  rewrite IH, add_node_nodes. intuition congruence.
Qed.

Lemma add_nodes_from_directed ns : forall g,
  directed (add_nodes_from g ns) = directed g.
Proof.
  unfold add_nodes_from.
  induction ns as [| n ns IH]; intros g; simpl; [reflexivity |].
  now rewrite IH, add_node_directed.
Qed.

Lemma add_nodes_from_edge_data ns : forall g,
  edge_data (add_nodes_from g ns) = edge_data g.
Proof.
  unfold add_nodes_from.
  induction ns as [| n ns IH]; intros g; simpl; [reflexivity |].
  now rewrite IH, add_node_edge_data.
Qed.

Lemma add_edge_nodes g u v w c :
  In c (nodes (add_edge g u v w)) <-> In c (nodes g) \/ c = u \/ c = v.
Proof. unfold add_edge. simpl. rewrite !add_node_nodes. tauto. Qed.

Lemma add_edge_directed g u v w : directed (add_edge g u v w) = directed g.
Proof. unfold add_edge. simpl. now rewrite !add_node_directed. Qed.

Lemma set_weight_new es u v w :
  ~ In (u, v) (map fst es) ->
  set_weight true es u v w = es ++ [(u, v, Some w)].
Proof.
  induction es as [| [[a b] x] es IH]; simpl; intros N; [reflexivity |].
  unfold same_edge. destruct (eq_dec (u, v) (a, b)) as [E | E].
  - exfalso. apply N. left. congruence.
  - f_equal. apply IH. tauto.
Qed.

Lemma add_edge_edge_data g u v w :
  directed g = true -> ~ In (u, v) (edges g) ->
  edge_data (add_edge g u v w) = edge_data g ++ [(u, v, Some w)].
Proof.
  intros D N. unfold add_edge. simpl.
  rewrite !add_node_directed, !add_node_edge_data, D.
  now apply set_weight_new.
Qed.

Lemma py_set_In l c : In c (py_set l) <-> In c l.
Proof.
  induction l as [| x l IH]; simpl; [tauto |].
  rewrite filter_In, IH. unfold mem.
  destruct (in_dec eq_dec c [x]) as [I | N]; simpl in *.
  - intuition congruence.
  - intuition congruence.
Qed.

Lemma NoDup_py_set l : NoDup (py_set l).
Proof.
  induction l as [| x l IH]; simpl; constructor.
  - rewrite filter_In. intros [_ E]. unfold mem in E.
    destruct (in_dec eq_dec x [x]) as [I | N]; [discriminate |].
    apply N. now left.
  - now apply NoDup_filter.
Qed.

Lemma fold_add_edge_nodes (d : dict (Z * Z) (list (Z * Z))) : forall h c,
  In c (nodes h) ->
  In c (nodes (fold_left
                 (fun h '((ci, cj), edges) => add_edge h ci cj (length edges))
                 d h)).
Proof.
  induction d as [| [[ci cj] l] d IH]; intros h c I; simpl; [exact I |].
  apply IH. rewrite add_edge_nodes. now left.
Qed.

Lemma fold_add_edge_data (d : dict (Z * Z) (list (Z * Z))) : forall h,
  directed h = true -> NoDup (edges h ++ keys d) ->
  edge_data (fold_left
               (fun h '((ci, cj), edges) => add_edge h ci cj (length edges))
               d h)
  = edge_data h ++ map weighted d.
Proof.
  induction d as [| [[ci cj] l] d IH]; intros h D ND; simpl.
  - now rewrite app_nil_r.
  - assert (N : ~ In (ci, cj) (edges h)).
    { apply NoDup_remove_2 in ND. intros I. apply ND.
      apply in_or_app. now left. }
    rewrite IH.
    + rewrite add_edge_edge_data by assumption.
      now rewrite <- app_assoc.
    + now rewrite add_edge_directed.
    + unfold edges. rewrite add_edge_edge_data by assumption.
      rewrite map_app, <- app_assoc. exact ND.
Qed.

Lemma hypergraph_nodes cs d c :
  In c cs -> In c (nodes (hypergraph_of cs d)).
Proof.
  intros I. unfold hypergraph_of, items. apply fold_add_edge_nodes.
  apply add_nodes_from_nodes. now right.
Qed.

Lemma hypergraph_edge_data cs d :
  wf_dict d -> edge_data (hypergraph_of cs d) = map weighted d.
Proof.
  intros ND. unfold hypergraph_of, items.
  rewrite fold_add_edge_data.
  - now rewrite add_nodes_from_edge_data.
  - now rewrite add_nodes_from_directed.
  - unfold edges. now rewrite add_nodes_from_edge_data.
Qed.
End Hypergraph.

(** ** Running a sequence *)

Section Run.
Variable B : Backend.

Lemma bind_ok {A C} (m : M B A) (k : A -> M B C) w a w' :
  m w = (Ok a, w') -> bind m k w = k a w'.
Proof. intros R. unfold bind. now rewrite R. Qed.

Lemma bind_raise {A C} (m : M B A) (k : A -> M B C) w e w' :
  m w = (Raise e, w') -> bind m k w = (Raise e, w').
Proof. intros R. unfold bind. now rewrite R. Qed.

Lemma nx_spring_layout_run G sc g p s :
  nx_spring_layout B G sc (mkWorld g p s)
  = (Ok (fst (spring_layout B G sc s)), mkWorld g p (snd (spring_layout B G sc s))).
Proof.
  unfold nx_spring_layout. simpl. now destruct (spring_layout B G sc s).
Qed.

Lemma getitem_ok {V} (d : dict Z V) k v (w : world B) :
  get d k = Some v -> getitem d k w = (Ok v, w).
Proof. intros G. unfold getitem. now rewrite G. Qed.

Lemma getitem_raise {V} (d : dict Z V) k (w : world B) :
  get d k = None -> getitem d k w = (Raise (KeyError k), w).
Proof. intros G. unfold getitem. now rewrite G. Qed.
End Run.

(** ** The inter-community positioner *)

Section Communities.
Variable B : Backend.
Hypothesis Hkeys : layout_keys B.

Lemma values_In (p : dict Z Z) n c : In (n, c) p -> In c (values p).
Proof. intros I. change c with (snd (n, c)). now apply in_map. Qed.

Lemma keys_In (p : dict Z Z) n c : In (n, c) p -> In n (keys p).
Proof. intros I. change n with (fst (n, c)). now apply in_map. Qed.

Lemma anchor_exists p d sc s c :
  In c (values p) -> exists a, get (fst (anchors_of B p d sc s)) c = Some a.
Proof.
  intros I. apply keys_get. unfold anchors_of. rewrite Hkeys.
  apply hypergraph_nodes. now apply py_set_In.
Qed.

Lemma position_communities_ok g p s sc :
  wf_dict p ->
  (forall u v, In (u, v) (edges g) -> In u (keys p) /\ In v (keys p)) ->
  exists d pc,
    _find_between_community_edges B (mkWorld g p s) = (Ok d, mkWorld g p s) /\
    between_spec p (edges g) d /\
    _position_communities B sc (mkWorld g p s)
      = (Ok pc, mkWorld g p (snd (anchors_of B p d sc s))) /\
    keys pc = keys p /\
    forall n c, get p n = Some c ->
      exists a, get (fst (anchors_of B p d sc s)) c = Some a /\ get pc n = Some a.
Proof.
  intros ND Tot.
  destruct (find_between_ok B (mkWorld g p s) Tot) as (d & R & Sp).
  simpl in Sp. exists d.
  unfold _position_communities.
  rewrite (bind_ok B _ _ _ _ _ R).
  erewrite bind_ok by reflexivity. cbv zeta.
  erewrite bind_ok by apply nx_spring_layout_run.
  erewrite bind_ok by reflexivity.
  simpl w_partition. fold (anchors_of B p d sc s).
  set (anchors := fst (anchors_of B p d sc s)).
  set (w1 := mkWorld g p (snd (anchors_of B p d sc s))).
  match goal with
  | |- context [for_each _ ?body _ _] =>
      pose proof (for_each_inv B
        (fun done (pos : dict Z (vec B)) w' =>
           w' = w1 /\ keys pos = keys done /\
           forall n c, In (n, c) done ->
             exists a, get anchors c = Some a /\ get pos n = Some a)
        body p) as Inv
  end.
  destruct Inv with (l := p) (done := @nil (Z * Z))
                    (acc := @empty Z (vec B)) (w := w1)
    as (pc & w' & Rl & -> & Ks & Gs).
  - intros done [node community] rest pos w0 E (-> & Ks & Gs).
    assert (I : In (node, community) p) by (rewrite <- E; apply in_elt).
    destruct (anchor_exists p d sc s community (values_In _ _ _ I)) as [a Ha].
    fold anchors in Ha.
    erewrite bind_ok by (apply getitem_ok; exact Ha).
    exists (set pos node a), w1. split; [reflexivity |]. split; [reflexivity |].
    assert (N : ~ In node (keys done)).
    { unfold wf_dict, keys in ND. rewrite <- E, map_app in ND. simpl in ND.
      apply NoDup_remove_2 in ND. intros I'. apply ND. apply in_or_app. now left. }
    split.
    + rewrite keys_set_new by now rewrite Ks.
      unfold keys in *. rewrite map_app. simpl. now rewrite <- Ks.
    + intros n c I'. apply in_app_or in I'. destruct I' as [I' | [[= <- <-] | []]].
      * destruct (Gs n c I') as (a' & Ha' & Gp). exists a'. split; [exact Ha' |].
        rewrite get_set_other; [exact Gp |].
        intros <-. apply N. now apply keys_In with (c := c).
      * exists a. split; [exact Ha | apply get_set_same].
  - reflexivity.
  - split; [reflexivity |]. split; [reflexivity |]. intros n c [].
  - exists pc. split; [exact R |]. split; [exact Sp |]. split; [exact Rl |].
    split; [exact Ks |].
    intros n c G. apply Gs. now apply get_Some_In.
Qed.
End Communities.

(** ** Grouping the nodes by community *)

Section Grouping.

Lemma members_snoc p n c0 c :
  members (p ++ [(n, c0)]) c
  = members p c ++ (if eq_dec c0 c then [n] else []).
Proof.
  unfold members. rewrite filter_app, map_app. simpl.
  now destruct (eq_dec c0 c).
Qed.

Lemma members_In p n c : In n (members p c) <-> In (n, c) p.
Proof.
  unfold members. rewrite in_map_iff. split.
  - intros [[n' c'] [E I]]. simpl in E. subst n'.
    apply filter_In in I. destruct I as [I T]. simpl in T.
    destruct (eq_dec c' c); [now subst | discriminate].
  - intros I. exists (n, c). split; [reflexivity |].
    apply filter_In. split; [exact I |]. simpl.
    destruct (eq_dec c c); congruence.
Qed.

Lemma members_get p n c : wf_dict p -> In n (members p c) <-> get p n = Some c.
Proof.
  intros ND. rewrite members_In. split.
  - now apply In_get.
  - apply get_Some_In.
Qed.

Lemma group_by_community_snoc p n c :
  group_by_community (p ++ [(n, c)])
  = match get (group_by_community p) c with
    | Some l => set (group_by_community p) c (l ++ [n])
    | None => set (group_by_community p) c [n]
    end.
Proof. unfold group_by_community. now rewrite fold_left_app. Qed.

Lemma group_by_community_spec p :
  wf_dict (group_by_community p) /\
  forall c, get (group_by_community p) c
            = match members p c with [] => None | l => Some l end.
Proof.
  induction p as [| [n c0] p [ND Sp]] using rev_ind.
  - split; [constructor | reflexivity].
  - rewrite group_by_community_snoc. split.
    + destruct (get (group_by_community p) c0); now apply NoDup_keys_set.
    + intros c. rewrite members_snoc.
      destruct (eq_dec c0 c) as [<- | N].
      * pose proof (Sp c0) as S0.
        destruct (members p c0) as [| m ms]; rewrite S0, get_set_same; reflexivity.
      * rewrite app_nil_r, <- Sp.
        destruct (get (group_by_community p) c0); now apply get_set_other.
Qed.

Lemma group_by_community_In p c ms :
  In (c, ms) (group_by_community p) -> ms = members p c /\ ms <> [].
Proof.
  destruct (group_by_community_spec p) as [ND Sp]. intros I.
  apply In_get in I; [| exact ND]. rewrite Sp in I.
  destruct (members p c); [discriminate |].
  inversion I. split; [reflexivity | discriminate].
Qed.

Lemma group_by_community_has p n c :
  In (n, c) p -> In (c, members p c) (group_by_community p).
Proof.
  destruct (group_by_community_spec p) as [ND Sp]. intros I.
  apply get_Some_In. rewrite Sp.
  apply members_In in I. now destruct (members p c); [destruct I |].
Qed.

Lemma before_split {V : Type} (cs : list (Z * V)) c v :
  NoDup (map fst cs) -> In (c, v) cs ->
  exists post, cs = before c cs ++ (c, v) :: post /\ ~ In c (map fst post).
Proof.
  induction cs as [| [c' v'] cs IH]; simpl; intros ND I; [destruct I |].
  inversion ND as [| ? ? N ND']; subst.
  destruct (eq_dec c c') as [<- | Ne].
  - destruct I as [E | I].
    + inversion E; subst. now exists cs.
    + exfalso. apply N. change c with (fst (c, v)). now apply in_map.
  - destruct I as [E | I]; [congruence |].
    destruct (IH ND' I) as (post & E & Np). exists post.
    split; [| exact Np]. simpl. now rewrite <- E.
Qed.
End Grouping.

(** ** The intra-community positioner *)

Section Nodes.
Variable B : Backend.

Lemma position_nodes_loop g p sc cs : forall pos s,
  for_each cs
    (fun '(ci, nodes) pos =>
       bind (g_subgraph B nodes) (fun subgraph =>
       bind (nx_spring_layout B subgraph sc) (fun pos_subgraph =>
       ret (update pos pos_subgraph))))
    pos (mkWorld g p s)
  = (Ok (fst (layout_each B g sc cs pos s)),
     mkWorld g p (snd (layout_each B g sc cs pos s))).
Proof.
  induction cs as [| [ci ns] cs IH]; intros pos s; [reflexivity |].
  cbn [for_each layout_each].
  erewrite bind_ok; [apply IH |].
  erewrite bind_ok by reflexivity.
  erewrite bind_ok by apply nx_spring_layout_run.
  reflexivity.
Qed.

(** [_position_nodes] never raises. *)
Lemma position_nodes_run g p s sc :
  _position_nodes B sc (mkWorld g p s)
  = (Ok (fst (layout_each B g sc (group_by_community p) empty s)),
     mkWorld g p (snd (layout_each B g sc (group_by_community p) empty s))).
Proof.
  unfold _position_nodes. erewrite bind_ok by reflexivity.
  cbv zeta. apply position_nodes_loop.
Qed.

Lemma layout_each_app g sc cs1 cs2 : forall pos s,
  layout_each B g sc (cs1 ++ cs2) pos s
  = layout_each B g sc cs2 (fst (layout_each B g sc cs1 pos s))
                         (snd (layout_each B g sc cs1 pos s)).
Proof.
  induction cs1 as [| [ci ns] cs1 IH]; intros pos s; [reflexivity |].
  simpl. apply IH.
Qed.

Lemma layout_each_rng g sc cs : forall pos pos' s,
  snd (layout_each B g sc cs pos s) = snd (layout_each B g sc cs pos' s).
Proof.
  induction cs as [| [ci ns] cs IH]; intros pos pos' s; [reflexivity |].
  simpl. apply IH.
Qed.

Lemma subgraph_nodes g ns n :
  In n (nodes (subgraph g ns)) <-> In n (nodes g) /\ In n ns.
Proof. unfold subgraph. simpl. now rewrite filter_In, mem_true. Qed.

Lemma NoDup_subgraph g ns : NoDup (nodes g) -> NoDup (nodes (subgraph g ns)).
Proof. intros ND. unfold subgraph. simpl. now apply NoDup_filter. Qed.

Hypothesis Hkeys : layout_keys B.

Lemma layout_each_keys g sc cs n : forall pos s,
  In n (keys (fst (layout_each B g sc cs pos s))) <->
  In n (keys pos) \/
  exists c ms, In (c, ms) cs /\ In n (nodes g) /\ In n ms.
Proof.
  induction cs as [| [ci ns] cs IH]; intros pos s; simpl.
  - split; [tauto | intros [I | (c & ms & [] & _)]; exact I].
  - rewrite IH, keys_update_In, Hkeys, subgraph_nodes. split.
    + intros [[I | I] | (c & ms & I & J)].
      * now left.
      * right. exists ci, ns. tauto.
      * right. exists c, ms. tauto.
    + intros [I | (c & ms & [E | I] & J)].
      * tauto.
      * inversion E; subst. tauto.
      * right. exists c, ms. tauto.
Qed.

Lemma layout_each_get_later g sc cs n : forall pos s,
  (forall c ms, In (c, ms) cs -> ~ In n ms) ->
  get (fst (layout_each B g sc cs pos s)) n = get pos n.
Proof.
  induction cs as [| [ci ns] cs IH]; intros pos s Hn; [reflexivity |].
  simpl. rewrite IH.
  - apply get_update_notin. rewrite Hkeys, subgraph_nodes.
    intros [_ I]. apply (Hn ci ns); [now left | exact I].
  - intros c ms I. apply (Hn c). now right.
Qed.

Lemma layout_each_get_at g sc pre c ms post n pos s :
  NoDup (nodes g) -> In n (nodes g) -> In n ms ->
  (forall c' ms', In (c', ms') post -> ~ In n ms') ->
  get (fst (layout_each B g sc (pre ++ (c, ms) :: post) pos s)) n
  = get (fst (spring_layout B (subgraph g ms) sc
                (snd (layout_each B g sc pre pos s)))) n.
Proof.
  intros ND Ig Im Hpost. rewrite layout_each_app. simpl.
  rewrite layout_each_get_later by exact Hpost.
  apply get_update_in.
  - unfold wf_dict. rewrite Hkeys. now apply NoDup_subgraph.
  - rewrite Hkeys. now apply subgraph_nodes.
Qed.

(** The offset of a node is the one the solver gave it when it laid
    out the node's community. *)
Lemma position_nodes_get g p s sc n c :
  wf_dict p -> NoDup (nodes g) -> In n (nodes g) -> get p n = Some c ->
  get (fst (layout_each B g sc (group_by_community p) empty s)) n
  = get (offsets_of B g p sc s c) n /\
  exists o, get (offsets_of B g p sc s c) n = Some o.
Proof.
  intros NDp NDg Ig Gp.
  assert (Ip : In (n, c) p) by now apply get_Some_In.
  destruct (group_by_community_spec p) as [NDc _].
  destruct (before_split _ c _ NDc (group_by_community_has p n c Ip))
    as (post & E & Np).
  split.
  - rewrite E at 1. rewrite layout_each_get_at.
    + reflexivity.
    + exact NDg.
    + exact Ig.
    + now apply members_In.
    + intros c' ms' I Im.
      assert (I' : In (c', ms') (group_by_community p)).
      { rewrite E. apply in_or_app. right. now right. }
      apply group_by_community_In in I'. destruct I' as [-> _].
      apply members_get in Im; [| exact NDp].
      assert (c' = c) by congruence. subst c'.
      apply Np. change c with (fst (c, members p c)). now apply in_map.
  - apply keys_get. unfold offsets_of. rewrite Hkeys.
    apply subgraph_nodes. split; [exact Ig | now apply members_In].
Qed.

Lemma position_nodes_keys g p s sc n :
  In n (keys (fst (layout_each B g sc (group_by_community p) empty s))) <->
  In n (nodes g) /\ In n (keys p).
Proof.
  rewrite layout_each_keys. simpl. split.
  - intros [[] | (c & ms & I & Ig & Im)]. split; [exact Ig |].
    apply group_by_community_In in I. destruct I as [-> _].
    apply members_In in Im. now apply keys_In with (c := c).
  - intros [Ig Ip]. right. apply keys_get in Ip. destruct Ip as [c Gp].
    apply get_Some_In in Gp. exists c, (members p c).
    split; [now apply group_by_community_has with (n := n) |].
    split; [exact Ig | now apply members_In].
Qed.
End Nodes.

(** ** What a call leaves of the world *)

Section Frame.
Variable B : Backend.

Lemma reads_preserves {A} (m : M B A) : reads m -> preserves m.
Proof. intros R w. now rewrite R. Qed.

Lemma reads_ret {A} (a : A) : reads (@ret B A a).
Proof. intros w. reflexivity. Qed.

Lemma reads_raise {A} e : reads (@raise B A e).
Proof. intros w. reflexivity. Qed.

Lemma reads_bind {A C} (m : M B A) (k : A -> M B C) :
  reads m -> (forall a, reads (k a)) -> reads (bind m k).
Proof.
  intros Rm Rk w. unfold bind. specialize (Rm w).
  destruct (m w) as [[a | e] w1]; simpl in Rm; subst w1; [apply Rk | reflexivity].
Qed.

Lemma reads_for_each {A S} (body : A -> S -> M B S) (l : list A) :
  (forall x acc, reads (body x acc)) -> forall acc, reads (for_each l body acc).
Proof.
  intros Rb. induction l as [| x l IH]; intros acc; simpl.
  - apply reads_ret.
  - apply reads_bind; [apply Rb | exact IH].
Qed.

Lemma reads_getitem {V} (d : dict Z V) k : reads (@getitem B V d k).
Proof. intros w. unfold getitem. now destruct (get d k). Qed.

Lemma reads_partition_getitem k : reads (partition_getitem B k).
Proof. intros w. unfold partition_getitem. now destruct (get (w_partition w) k). Qed.

Lemma preserves_bind {A C} (m : M B A) (k : A -> M B C) :
  preserves m -> (forall a, preserves (k a)) -> preserves (bind m k).
Proof.
  intros Pm Pk w. unfold bind. specialize (Pm w).
  destruct (m w) as [[a | e] w1]; simpl in Pm.
  - destruct Pm as [Eg1 Ep1]. destruct (Pk a w1) as [Eg Ep]. split; congruence.
  - exact Pm.
Qed.

Lemma preserves_for_each {A S} (body : A -> S -> M B S) (l : list A) :
  (forall x acc, preserves (body x acc)) ->
  forall acc, preserves (for_each l body acc).
Proof.
  intros Pb. induction l as [| x l IH]; intros acc; simpl.
  - apply reads_preserves, reads_ret.
  - apply preserves_bind; [apply Pb | exact IH].
Qed.

Lemma preserves_nx_spring_layout G sc : preserves (nx_spring_layout B G sc).
Proof.
  intros w. unfold nx_spring_layout.
  now destruct (spring_layout B G sc (w_rng w)).
Qed.

Lemma reads_find_between : reads (_find_between_community_edges B).
Proof.
  unfold _find_between_community_edges.
  apply reads_bind; [intros w; reflexivity |].
  intros es. apply reads_for_each. intros [ni nj] acc.
  apply reads_bind; [apply reads_partition_getitem |]. intros ci.
  apply reads_bind; [apply reads_partition_getitem |]. intros cj.
  destruct (eq_dec ci cj); [apply reads_ret |].
  destruct (get acc (ci, cj)); apply reads_ret.
Qed.

Lemma preserves_position_communities sc :
  preserves (_position_communities B sc).
Proof.
  unfold _position_communities.
  apply preserves_bind; [apply reads_preserves, reads_find_between |].
  intros d. apply preserves_bind; [intros w; now split |].
  intros vs. cbv zeta.
  apply preserves_bind; [apply preserves_nx_spring_layout |].
  intros pc. apply preserves_bind; [intros w; now split |].
  intros its. apply preserves_for_each. intros [node community] pos.
  apply reads_preserves, reads_bind; [apply reads_getitem |].
  intros a. apply reads_ret.
Qed.

Lemma preserves_position_nodes sc : preserves (_position_nodes B sc).
Proof.
  unfold _position_nodes.
  apply preserves_bind; [intros w; now split |].
  intros its. cbv zeta. apply preserves_for_each. intros [ci ns] pos.
  apply preserves_bind; [intros w; now split |].
  intros sg. apply preserves_bind; [apply preserves_nx_spring_layout |].
  intros ps. apply reads_preserves, reads_ret.
Qed.

Lemma preserves_community_layout : preserves (community_layout B).
Proof.
  unfold community_layout.
  apply preserves_bind; [apply preserves_position_communities |].
  intros pc. apply preserves_bind; [apply preserves_position_nodes |].
  intros pn. apply preserves_bind; [intros w; now split |].
  intros ns. apply preserves_for_each. intros node pos.
  apply reads_preserves, reads_bind; [apply reads_getitem |].
  intros a. apply reads_bind; [apply reads_getitem |].
  intros o. apply reads_ret.
Qed.

(** When the loop returns, what held of the accumulator at the start
    and is kept by every turn that returns holds at the end. *)
Lemma for_each_returns {A S} (I : S -> Prop) (body : A -> S -> M B S)
    (l : list A) :
  (forall x acc w acc' w',
      In x l -> I acc -> body x acc w = (Ok acc', w') -> I acc') ->
  forall acc w acc' w',
    I acc -> for_each l body acc w = (Ok acc', w') -> I acc'.
Proof.
  intros Step.
  assert (G : forall l', incl l' l -> forall acc w acc' w',
               I acc -> for_each l' body acc w = (Ok acc', w') -> I acc').
  { induction l' as [| x l' IH]; intros Sub acc w acc' w' HI R.
    - simpl in R. inversion R. now subst.
    - simpl in R. unfold bind in R.
      destruct (body x acc w) as [[acc1 | e] w1] eqn:Rb; [| discriminate].
      apply (IH (proj2 (incl_cons_inv Sub)) acc1 w1 acc' w'); [| exact R].
      apply (Step x acc w acc1 w1); [apply Sub; now left | exact HI | exact Rb]. }
  apply G, incl_refl.
Qed.

(** The anchors are keyed by nodes of the partition only. *)
Lemma position_communities_keys sc w pc w' :
  _position_communities B sc w = (Ok pc, w') ->
  forall n, In n (keys pc) -> In n (keys (w_partition w)).
Proof.
  unfold _position_communities. intros R.
  unfold bind at 1 in R.
  pose proof (reads_find_between w) as Ew.
  destruct (_find_between_community_edges B w) as [[d | e] w0];
    simpl in Ew; subst w0; [| discriminate].
  unfold bind at 1 in R. simpl in R. cbv zeta in R.
  unfold bind at 1 in R.
  pose proof (preserves_nx_spring_layout
                (hypergraph_of (py_set (values (w_partition w))) d) sc w) as [_ Ep].
  destruct (nx_spring_layout B _ sc w) as [[anchors | e] w1];
    simpl in Ep; [| discriminate].
  unfold bind at 1 in R. simpl in R. rewrite Ep in R. unfold items in R.
  refine (for_each_returns
            (fun pos : dict Z (vec B) =>
               forall n, In n (keys pos) -> In n (keys (w_partition w)))
            _ _ _ _ _ _ _ _ R).
  - intros [node community] acc w2 acc' w2' I HI Rb n J.
    unfold bind, getitem in Rb.
    destruct (get anchors community) as [a |]; simpl in Rb; [| discriminate].
    inversion Rb; subst. apply keys_set_In in J.
    destruct J as [-> | J]; [| now apply HI].
    now apply keys_In with (c := community).
  - intros n [].
Qed.
End Frame.

(** ** The composer *)

Section Composer.
Variable B : Backend.
Hypothesis Hkeys : layout_keys B.

Lemma edges_covered g p :
  wf_graph g -> covers p g ->
  forall u v, In (u, v) (edges g) -> In u (keys p) /\ In v (keys p).
Proof.
  intros [_ He] Hc u v I. destruct (He u v I). split; now apply Hc.
Qed.

(** The last loop of [community_layout]. *)
Lemma compose_loop (pc pn : dict Z (vec B)) (ns : list Z) (w : world B) :
  NoDup ns ->
  (forall n, In n ns -> exists a o, get pc n = Some a /\ get pn n = Some o) ->
  exists pos,
    for_each ns
      (fun node pos =>
         bind (getitem pc node) (fun a =>
         bind (getitem pn node) (fun o =>
         ret (set pos node (vadd a o)))))
      empty w = (Ok pos, w) /\
    keys pos = ns /\
    forall n a o, In n ns -> get pc n = Some a -> get pn n = Some o ->
      get pos n = Some (vadd a o).
Proof.
  intros ND Hn.
  match goal with
  | |- context [for_each _ ?body _ _] =>
      pose proof (for_each_inv B
        (fun done (pos : dict Z (vec B)) w' =>
           w' = w /\ keys pos = done /\
           forall n a o, In n done -> get pc n = Some a -> get pn n = Some o ->
             get pos n = Some (vadd a o))
        body ns) as Inv
  end.
  destruct Inv with (l := ns) (done := @nil Z)
                    (acc := @empty Z (vec B)) (w := w)
    as (pos & w' & R & -> & Ks & Gs).
  - intros done node rest pos w0 E (-> & Ks & Gs).
    assert (I : In node ns) by (rewrite <- E; apply in_elt).
    destruct (Hn node I) as (a & o & Ga & Go).
    erewrite bind_ok by (apply getitem_ok; exact Ga).
    erewrite bind_ok by (apply getitem_ok; exact Go).
    exists (set pos node (vadd a o)), w.
    split; [reflexivity |]. split; [reflexivity |].
    assert (N : ~ In node done).
    { rewrite <- E in ND. apply NoDup_remove_2 in ND.
      intros J. apply ND. apply in_or_app. now left. }
    split.
    + rewrite keys_set_new by now rewrite Ks. now rewrite Ks.
    + intros n a' o' J Ga' Go'. apply in_app_or in J.
      destruct J as [J | [<- | []]].
      * rewrite get_set_other by (intros <-; contradiction).
        now apply Gs.
      * rewrite get_set_same. congruence.
  - reflexivity.
  - split; [reflexivity |]. split; [reflexivity |]. intros n a o [].
  - exists pos. split; [exact R |]. split; [exact Ks | exact Gs].
Qed.

(** One run of [community_layout] on a graph whose nodes the partition
    covers: the three stages return, and every node gets the sum of its
    community's anchor and of its own offset. *)
Lemma community_layout_ok g p s :
  wf_graph g -> wf_dict p -> covers p g ->
  exists d pc pos,
    let anchors := fst (anchors_of B p d 3 s) in
    let s1 := snd (anchors_of B p d 3 s) in
    let pn := fst (layout_each B g 1 (group_by_community p) empty s1) in
    let s2 := snd (layout_each B g 1 (group_by_community p) empty s1) in
    _find_between_community_edges B (mkWorld g p s) = (Ok d, mkWorld g p s) /\
    between_spec p (edges g) d /\
    _position_communities B 3 (mkWorld g p s) = (Ok pc, mkWorld g p s1) /\
    _position_nodes B 1 (mkWorld g p s1) = (Ok pn, mkWorld g p s2) /\
    community_layout B (mkWorld g p s) = (Ok pos, mkWorld g p s2) /\
    keys pos = nodes g /\
    forall n, In n (nodes g) ->
      exists c a o,
        get p n = Some c /\
        get anchors c = Some a /\ get pc n = Some a /\
        get (offsets_of B g p 1 s1 c) n = Some o /\ get pn n = Some o /\
        get pos n = Some (vadd a o).
Proof.
  intros Wg Wp Hc.
  destruct (position_communities_ok B Hkeys g p s 3 Wp (edges_covered g p Wg Hc))
    as (d & pc & Rf & Sp & Rc & Kc & Gc).
  exists d, pc. cbv zeta.
  set (s1 := snd (anchors_of B p d 3 s)) in *.
  pose proof (position_nodes_run B g p s1 1) as Rn.
  set (L := layout_each B g 1 (group_by_community p) empty s1) in *.
  assert (F : forall n, In n (nodes g) ->
            exists c a o,
              get p n = Some c /\
              get (fst (anchors_of B p d 3 s)) c = Some a /\ get pc n = Some a /\
              get (offsets_of B g p 1 s1 c) n = Some o /\ get (fst L) n = Some o).
  { intros n I. destruct (keys_get p n (Hc n I)) as [c Gp].
    destruct (Gc n c Gp) as (a & Ga & Gpc).
    destruct (position_nodes_get B Hkeys g p s1 1 n c Wp (proj1 Wg) I Gp)
      as (E & o & Go).
    exists c, a, o. fold L in E. rewrite E. tauto. }
  destruct (compose_loop pc (fst L) (nodes g) (mkWorld g p (snd L)) (proj1 Wg))
    as (pos & Rl & Ks & Gs).
  { intros n I. destruct (F n I) as (c & a & o & _ & _ & Ga & _ & Go).
    now exists a, o. }
  exists pos. split; [exact Rf |]. split; [exact Sp |]. split; [exact Rc |].
  split; [exact Rn |].
  split.
  - unfold community_layout.
    rewrite (bind_ok B _ _ _ _ _ Rc), (bind_ok B _ _ _ _ _ Rn).
    erewrite bind_ok by reflexivity. exact Rl.
  - split; [exact Ks |]. intros n I.
    destruct (F n I) as (c & a & o & Gp & Ga & Gpc & Go & Gpn).
    exists c, a, o. repeat split; try assumption.
    now apply Gs.
Qed.
End Composer.

(** ** The toy backend meets the contracts *)

Section ToyFacts.

Lemma toy_get G sc s n v :
  get (fst (Toy.tlayout G sc s)) n = Some v -> v = Toy.place sc s n.
Proof.
  unfold Toy.tlayout. simpl. induction (nodes G) as [| m l IH]; simpl.
  - discriminate.
  - destruct (eq_dec n m) as [-> | _]; [congruence | exact IH].
Qed.

Lemma toy_layout_keys : layout_keys Toy.backend.
Proof.
  intros G sc s. simpl. unfold keys. rewrite map_map. simpl. apply map_id.
Qed.

Lemma toy_layout_bounded : layout_bounded Toy.backend.
Proof.
  intros G sc s n v Hsc Gv. apply toy_get in Gv. subst v.
  unfold vwithin, Toy.place. simpl. split.
  - destruct (Z.even (s + n)).
    + rewrite Qabs_pos by exact Hsc. apply Qle_refl.
    + rewrite Qabs_opp, Qabs_pos by exact Hsc. apply Qle_refl.
  - exact Hsc.
Qed.

Lemma toy_float_bounds : float_bounds Toy.backend.
Proof.
  split.
  - intros b [x |] W; simpl in *; [discriminate | destruct W].
  - intros a b [x |] [y |] _ _ _ Wx Wy; simpl in *; try contradiction.
    rewrite inject_Z_plus.
    eapply Qle_trans; [apply Qabs_triangle |].
    now apply Qplus_le_compat.
Qed.
End ToyFacts.

(** ** The example input is well formed *)

Section ExampleFacts.

Ltac distinct := repeat constructor; simpl; intuition discriminate.

Ltac listed :=
  let n := fresh "n" in
  let H := fresh "H" in
  intros n H; simpl in H |- *; intuition.

Ltac joined :=
  let H := fresh "H" in
  intros ? ? H; simpl in H;
  repeat (destruct H as [H | H]; [inversion H; subst; simpl; tauto |]);
  destruct H.

Lemma example_wf_g : wf_graph Example.g.
Proof. split; [distinct | joined]. Qed.


Lemma example_wf_p : wf_dict Example.p.
Proof. distinct. Qed.



Lemma example_wf_p_one : wf_dict Example.p_one.
Proof. distinct. Qed.

Lemma example_covers_p : covers Example.p Example.g.
Proof. listed. Qed.

Lemma example_covers_p_one : covers Example.p_one Example.g.
Proof. listed. Qed.

Lemma example_one_community : forall n, In n (nodes Example.g) -> get Example.p_one n = Some 10.
Proof.
  intros n H. simpl in H.
  repeat (destruct H as [<- | H]; [reflexivity |]). destruct H.
Qed.

Lemma example_wf_g_single : wf_graph Example.g_single.
Proof. split; [distinct | joined]. Qed.

Lemma example_wf_p_single : wf_dict Example.p_single.
Proof. distinct. Qed.

Lemma example_covers_p_single : covers Example.p_single Example.g_single.
Proof. listed. Qed.
End ExampleFacts.

(** ** Properties of the layout engine *)

Section Properties.
Variable B : Backend.

Lemma scale_nonneg_3 : (0 <= 3)%Q.
Proof. unfold Qle. simpl. lia. Qed.

Lemma scale_nonneg_1 : (0 <= 1)%Q.
Proof. unfold Qle. simpl. lia. Qed.

Lemma vadd_finite (a o : vec B) :
  float_bounds B -> vwithin 3 a -> vwithin 1 o -> vfinite (vadd a o).
Proof.
  intros [Fin Add] [A1 A2] [O1 O2].
  split; apply (Fin (inject_Z (3 + 1))); apply Add; try lia; assumption.
Qed.

Lemma keys_nil {K V : Type} (d : dict K V) : keys d = [] -> d = [].
Proof. destruct d; [reflexivity | discriminate]. Qed.

Lemma partition_getitem_ok g p s k c :
  get p k = Some c ->
  partition_getitem B k (mkWorld g p s) = (Ok c, mkWorld g p s).
Proof. intros G. unfold partition_getitem. simpl. now rewrite G. Qed.

Lemma crossing_edges_In p es ci cj e :
  In e (crossing_edges p es ci cj) <->
  In e es /\ get p (fst e) = Some ci /\ get p (snd e) = Some cj.
Proof.
  unfold crossing_edges, crosses. rewrite filter_In.
  destruct (get p (fst e)) as [a |]; [| intuition discriminate].
  destruct (get p (snd e)) as [b |]; [| intuition discriminate].
  destruct (eq_dec (a, b) (ci, cj)) as [E | N].
  - inversion E; subst. tauto.
  - intuition (try discriminate). exfalso. apply N. congruence.
Qed.

Lemma between_spec_keys p es d ci cj :
  between_spec p es d ->
  (In (ci, cj) (keys d) <->
   ci <> cj /\
   exists u v, In (u, v) es /\ get p u = Some ci /\ get p v = Some cj).
Proof.
  intros [_ Sp]. split.
  - intros I. apply keys_get in I. destruct I as [l G]. rewrite Sp in G.
    destruct (eq_dec ci cj) as [E | N]; [discriminate |]. split; [exact N |].
    destruct (crossing_edges p es ci cj) as [| [u v] l'] eqn:C; [discriminate |].
    assert (I : In (u, v) (crossing_edges p es ci cj)) by (rewrite C; now left).
    apply crossing_edges_In in I. now exists u, v.
  - intros (N & u & v & I & Gu & Gv).
    assert (J : In (u, v) (crossing_edges p es ci cj))
      by (apply crossing_edges_In; tauto).
    destruct (get d (ci, cj)) as [l |] eqn:G; [now apply get_Some_keys in G |].
    rewrite Sp in G. destruct (eq_dec ci cj); [contradiction |].
    destruct (crossing_edges p es ci cj); [destruct J | discriminate].
Qed.

Lemma between_spec_get p es d ci cj :
  between_spec p es d -> In (ci, cj) (keys d) ->
  get d (ci, cj) = Some (crossing_edges p es ci cj).
Proof.
  intros [ND Sp] I. apply keys_get in I. destruct I as [l G].
  rewrite G. rewrite Sp in G. destruct (eq_dec ci cj); [discriminate |].
  destruct (crossing_edges p es ci cj); [discriminate | now symmetry].
Qed.

(** C1. Whenever the partition gives a community to every node of the
    graph, [community_layout] returns, and the dictionary it returns has
    exactly one entry per node of the graph (its keys are the graph's
    nodes, each once), each entry a pair of finite numbers. *)
Theorem community_layout_one_finite_position_per_node g p s :
  layout_keys B -> layout_bounded B -> float_bounds B ->
  wf_graph g -> wf_dict p -> covers p g ->
  exists pos w',
    community_layout B (mkWorld g p s) = (Ok pos, w') /\
    keys pos = nodes g /\ wf_dict pos /\
    (forall n, In n (nodes g) <-> exists v, get pos n = Some v) /\
    (forall n v, get pos n = Some v -> vfinite v).
Proof.
  intros Hk Hb Hf Wg Wp Hc.
  destruct (community_layout_ok B Hk g p s Wg Wp Hc)
    as (d & pc & pos & _ & _ & _ & _ & R & Ks & F).
  exists pos. eexists. split; [exact R |]. split; [exact Ks |].
  split; [unfold wf_dict; rewrite Ks; exact (proj1 Wg) |]. split.
  - intros n. split.
    + intros I. destruct (F n I) as (c & a & o & _ & _ & _ & _ & _ & G).
      now exists (vadd a o).
    + intros [v G]. rewrite <- Ks. now apply get_Some_keys in G.
  - intros n v G.
    assert (I : In n (nodes g)) by (rewrite <- Ks; now apply get_Some_keys in G).
    destruct (F n I) as (c & a & o & _ & Ga & _ & Go & _ & G').
    assert (v = vadd a o) by congruence. subst v.
    apply vadd_finite; [exact Hf | |].
    + apply (Hb _ _ _ _ _ scale_nonneg_3 Ga).
    + apply (Hb _ _ _ _ _ scale_nonneg_1 Go).
Qed.

(** C2. The position [community_layout] returns for a node is the
    component-wise sum of the anchor that [_position_communities], called
    with scale 3, gives the node and of the offset that [_position_nodes],
    called with scale 1 on the world the first call left, gives it; the
    first scale is strictly the larger. *)
Theorem community_layout_adds_anchor_and_offset g p s :
  layout_keys B -> wf_graph g -> wf_dict p -> covers p g ->
  exists pc w1 pn w2 pos,
    _position_communities B 3 (mkWorld g p s) = (Ok pc, w1) /\
    _position_nodes B 1 w1 = (Ok pn, w2) /\
    community_layout B (mkWorld g p s) = (Ok pos, w2) /\
    (1 < 3)%Q /\
    forall n, In n (nodes g) ->
      exists a o,
        get pc n = Some a /\ get pn n = Some o /\
        get pos n = Some (fadd B (fst a) (fst o), fadd B (snd a) (snd o)).
Proof.
  intros Hk Wg Wp Hc.
  destruct (community_layout_ok B Hk g p s Wg Wp Hc)
    as (d & pc & pos & _ & _ & Rc & Rn & R & _ & F).
  exists pc. eexists. eexists. eexists. exists pos.
  split; [exact Rc |]. split; [exact Rn |]. split; [exact R |].
  split; [reflexivity |].
  intros n I. destruct (F n I) as (c & a & o & _ & _ & Ga & _ & Go & G).
  now exists a, o.
Qed.

(** C3. On a graph whose nodes the partition covers,
    [_find_between_community_edges] returns a dictionary whose keys are
    exactly the ordered pairs of distinct communities that some edge of
    the graph crosses, each mapped to the list of the edges crossing it,
    and the meta-graph has one edge per key, weighted by the length of
    that list.  On the edges (1,2), (2,3), (3,4) with nodes 1 and 2 in
    community [a] and 3 and 4 in community [b], the dictionary has the
    single entry ([a], [b]), holding one edge. *)
Theorem find_between_community_edges_exact g p s (a b : Z) :
  wf_graph g -> covers p g -> a <> b ->
  (exists d,
     _find_between_community_edges B (mkWorld g p s) = (Ok d, mkWorld g p s) /\
     wf_dict d /\
     (forall ci cj,
        In (ci, cj) (keys d) <->
        ci <> cj /\
        exists u v, In (u, v) (edges g) /\ get p u = Some ci /\ get p v = Some cj) /\
     (forall ci cj,
        In (ci, cj) (keys d) ->
        get d (ci, cj) = Some (crossing_edges p (edges g) ci cj)) /\
     (forall ci cj w,
        In (ci, cj, w) (edge_data (hypergraph_of (py_set (values p)) d)) <->
        exists l, get d (ci, cj) = Some l /\ w = Some (length l))) /\
  (forall dir,
     let g0 := mkGraph dir [1; 2; 3; 4] [(1, 2, None); (2, 3, None); (3, 4, None)] in
     let p0 := [(1, a); (2, a); (3, b); (4, b)] in
     _find_between_community_edges B (mkWorld g0 p0 s)
       = (Ok [((a, b), [(2, 3)])], mkWorld g0 p0 s) /\
     edge_data (hypergraph_of (py_set (values p0)) [((a, b), [(2, 3)])])
       = [(a, b, Some 1%nat)]).
Proof.
  intros Wg Hc Nab. split.
  - destruct (find_between_ok B (mkWorld g p s) (edges_covered g p Wg Hc))
      as (d & R & Sp).
    simpl in Sp. exists d. split; [exact R |]. split; [exact (proj1 Sp) |].
    split; [intros ci cj; now apply between_spec_keys |].
    split; [intros ci cj; now apply between_spec_get |].
    intros ci cj w. rewrite hypergraph_edge_data by exact (proj1 Sp).
    unfold weighted. rewrite in_map_iff. split.
    + intros [[k l] [E I]]. simpl in E. inversion E; subst.
      exists l. split; [| reflexivity]. now apply In_get; [exact (proj1 Sp) |].
    + intros (l & G & ->). exists (ci, cj, l). split; [reflexivity |].
      now apply get_Some_In.
  - intros dir g0 p0. split.
    + unfold _find_between_community_edges.
      erewrite bind_ok by reflexivity.
      replace (edges (w_graph (mkWorld g0 p0 s)))
        with [(1, 2); (2, 3); (3, 4)] by reflexivity.
      cbn [for_each].
      assert (G1 : get p0 1 = Some a) by reflexivity.
      assert (G2 : get p0 2 = Some a) by reflexivity.
      assert (G3 : get p0 3 = Some b) by reflexivity.
      assert (G4 : get p0 4 = Some b) by reflexivity.
      erewrite bind_ok.
      2: { erewrite bind_ok by (apply partition_getitem_ok; exact G1).
           erewrite bind_ok by (apply partition_getitem_ok; exact G2).
           destruct (eq_dec a a) as [_ | N]; [reflexivity | congruence]. }
      erewrite bind_ok.
      2: { erewrite bind_ok by (apply partition_getitem_ok; exact G2).
           erewrite bind_ok by (apply partition_getitem_ok; exact G3).
           destruct (eq_dec a b) as [E | _]; [congruence | reflexivity]. }
      erewrite bind_ok.
      2: { erewrite bind_ok by (apply partition_getitem_ok; exact G3).
           erewrite bind_ok by (apply partition_getitem_ok; exact G4).
           destruct (eq_dec b b) as [_ | N]; [reflexivity | congruence]. }
      reflexivity.
    + rewrite hypergraph_edge_data; [reflexivity |].
      repeat constructor. simpl. tauto.
Qed.

(** C4. When some node of the graph has no entry in the partition, be it
    on an edge or isolated, [community_layout] raises [KeyError]: it
    returns no dictionary. *)
Theorem community_layout_raises_on_missing_node g p s n :
  In n (nodes g) -> get p n = None ->
  exists k w', community_layout B (mkWorld g p s) = (Raise (KeyError k), w').
Proof.
  intros I Gp. unfold community_layout.
  destruct (_position_communities B 3 (mkWorld g p s)) as [[pc | [k]] w1] eqn:Rc.
  - rewrite (bind_ok B _ _ _ _ _ Rc).
    pose proof (preserves_position_communities B 3 (mkWorld g p s)) as [Eg Ep].
    rewrite Rc in Eg, Ep. destruct w1 as [g1 p1 s1]. simpl in Eg, Ep. subst g1 p1.
    rewrite (bind_ok B _ _ _ _ _ (position_nodes_run B g p s1 1)).
    erewrite bind_ok by reflexivity. simpl w_graph.
    match goal with
    | |- context [for_each _ ?body ?acc0 ?w0] =>
        destruct (for_each_raises B body n) with (l := nodes g) (acc := acc0) (w := w0)
          as ([k] & w' & R)
    end.
    + intros acc w. exists (KeyError n), w.
      apply bind_raise, getitem_raise.
      destruct (get pc n) as [a |] eqn:G; [| reflexivity].
      apply get_Some_keys in G.
      apply (position_communities_keys B 3 _ _ _ Rc) in G. simpl in G.
      apply get_None in Gp. contradiction.
    + exact I.
    + now exists k, w'.
  - exists k, w1. now apply bind_raise.
Qed.
End Properties.

Section Independence.
Variable B : Backend.
Hypothesis Hkeys : layout_keys B.


(** C5. [_position_communities] gives two nodes of one community the
    same anchor; when the partition puts every node of the graph in one
    community, one anchor serves them all, and the position
    [community_layout] returns for a node is, coordinate by coordinate,
    the float sum of that anchor and of the offset the intra-community
    layout gives the node. *)
Theorem same_community_same_anchor g p s sc :
  wf_graph g -> wf_dict p -> covers p g ->
  (exists pc w1,
     _position_communities B sc (mkWorld g p s) = (Ok pc, w1) /\
     forall u v c, get p u = Some c -> get p v = Some c ->
       exists a, get pc u = Some a /\ get pc v = Some a) /\
  (forall c0,
     (forall n, In n (nodes g) -> get p n = Some c0) ->
     exists pc w1 pn w2 pos (anchor : option (vec B)),
       _position_communities B 3 (mkWorld g p s) = (Ok pc, w1) /\
       _position_nodes B 1 w1 = (Ok pn, w2) /\
       community_layout B (mkWorld g p s) = (Ok pos, w2) /\
       forall n, In n (nodes g) ->
         exists a o,
           anchor = Some a /\ get pc n = Some a /\
           get pn n = Some o /\
           get pos n = Some (fadd B (fst a) (fst o), fadd B (snd a) (snd o))).
Proof.
  intros Wg Wp Hc. split.
  - destruct (position_communities_ok B Hkeys g p s sc Wp (edges_covered g p Wg Hc))
      as (d & pc & _ & _ & Rc & _ & Gc).
    exists pc. eexists. split; [exact Rc |].
    intros u v c Gu Gv.
    destruct (Gc u c Gu) as (a & Ga & Gpu). destruct (Gc v c Gv) as (a' & Ga' & Gpv).
    exists a. split; [exact Gpu | congruence].
  - intros c0 One.
    destruct (community_layout_ok B Hkeys g p s Wg Wp Hc)
      as (d & pc & pos & _ & _ & Rc & Rn & R & _ & F).
    exists pc. eexists. eexists. eexists. exists pos.
    exists (get (fst (anchors_of B p d 3 s)) c0).
    split; [exact Rc |]. split; [exact Rn |]. split; [exact R |].
    intros n I. destruct (F n I) as (c & a & o & Gp & Ga & Gpc & _ & Gpn & G).
    rewrite (One n I) in Gp. inversion Gp; subst c.
    now exists a, o.
Qed.

End Independence.

Section Effects.
Variable B : Backend.

(** Seeding the generator and running [m2] gives the same outcome after
    a seeded run of [m1] as without it, as long as [m1] leaves the graph
    and the partition alone. *)
Lemma seeded_rerun {A C} (m1 : M B A) (m2 : M B C) k (w : world B) :
  preserves m1 ->
  bind (np_random_seed B k) (fun _ => m2)
    (snd (bind (np_random_seed B k) (fun _ => m1) w))
  = bind (np_random_seed B k) (fun _ => m2) w.
Proof.
  intros P1.
  assert (P : preserves (bind (np_random_seed B k) (fun _ => m1))).
  { apply preserves_bind; [intros w0; now split | intros _; exact P1]. }
  destruct (P w) as [Eg Ep].
  unfold bind at 1 3. unfold np_random_seed at 1 3. cbv beta iota.
  now rewrite Eg, Ep.
Qed.

(** C7. A layout keeps nothing from one run to the next: with the
    solver a function of the graph it is given, of the scale and of the
    state of the generator, seeding the generator and running
    [community_layout] (or [_position_nodes]) a second time, in the world
    the first seeded run left, gives the value and leaves the world that
    the first run gave and left.  The layouts can be mixed: what a seeded
    [_position_nodes] gives does not depend on a [community_layout] run
    before it. *)
Theorem layout_deterministic_given_seed (w : world B) k sc :
  bind (np_random_seed B k) (fun _ => community_layout B)
    (snd (bind (np_random_seed B k) (fun _ => community_layout B) w))
  = bind (np_random_seed B k) (fun _ => community_layout B) w /\
  bind (np_random_seed B k) (fun _ => _position_nodes B sc)
    (snd (bind (np_random_seed B k) (fun _ => _position_nodes B sc) w))
  = bind (np_random_seed B k) (fun _ => _position_nodes B sc) w /\
  bind (np_random_seed B k) (fun _ => _position_nodes B sc)
    (snd (bind (np_random_seed B k) (fun _ => community_layout B) w))
  = bind (np_random_seed B k) (fun _ => _position_nodes B sc) w.
Proof.
  split; [apply seeded_rerun, preserves_community_layout |].
  split; [apply seeded_rerun, preserves_position_nodes |].
  apply seeded_rerun, preserves_community_layout.
Qed.

(** C9. [community_layout] leaves the caller's graph and partition as it
    found them, whether it returns or raises, and so does each of its
    helpers; the dictionaries it fills start empty in every call, so a
    call made after another returns what it would have returned alone
    from the same state of the generator. *)
Theorem community_layout_leaves_inputs_unchanged (w : world B) sc :
  (w_graph (snd (community_layout B w)) = w_graph w /\
   w_partition (snd (community_layout B w)) = w_partition w) /\
  (w_graph (snd (_position_communities B sc w)) = w_graph w /\
   w_partition (snd (_position_communities B sc w)) = w_partition w) /\
  (w_graph (snd (_position_nodes B sc w)) = w_graph w /\
   w_partition (snd (_position_nodes B sc w)) = w_partition w) /\
  snd (_find_between_community_edges B w) = w /\
  (forall pos w1,
     community_layout B w = (Ok pos, w1) ->
     bind (community_layout B) (fun _ => community_layout B) w
     = community_layout B (mkWorld (w_graph w) (w_partition w) (w_rng w1))).
Proof.
  split; [apply preserves_community_layout |].
  split; [apply preserves_position_communities |].
  split; [apply preserves_position_nodes |].
  split; [apply reads_find_between |].
  intros pos w1 R. rewrite (bind_ok B _ _ _ _ _ R).
  destruct (preserves_community_layout B w) as [Eg Ep].
  rewrite R in Eg, Ep. simpl in Eg, Ep. rewrite <- Eg, <- Ep.
  now destruct w1.
Qed.
End Effects.

Section Coverage.
Variable B : Backend.
Hypothesis Hkeys : layout_keys B.

(** C8. On any graph whose nodes the partition covers, the empty graph,
    a graph of one node, singleton communities and communities without
    internal or crossing edges included, every stage returns: every
    community of the partition is a node of the meta-graph, crossed by an
    edge or not, and has a finite anchor; every node of the graph has a
    finite offset, alone in its community or not; [community_layout]
    returns a finite position for every node of the graph, and the empty
    dictionary for the empty graph. *)
Theorem degenerate_inputs_are_laid_out g p s :
  layout_bounded B -> float_bounds B ->
  wf_graph g -> wf_dict p -> covers p g ->
  exists d pc w1 pn w2 pos,
    _find_between_community_edges B (mkWorld g p s) = (Ok d, mkWorld g p s) /\
    _position_communities B 3 (mkWorld g p s) = (Ok pc, w1) /\
    _position_nodes B 1 w1 = (Ok pn, w2) /\
    community_layout B (mkWorld g p s) = (Ok pos, w2) /\
    (nodes g = [] -> pos = []) /\
    (forall c, In c (values p) ->
       In c (nodes (hypergraph_of (py_set (values p)) d))) /\
    (forall n c, get p n = Some c ->
       exists a, get pc n = Some a /\ vfinite a) /\
    (forall n, In n (nodes g) -> exists o, get pn n = Some o /\ vfinite o) /\
    (forall n, In n (nodes g) -> exists v, get pos n = Some v /\ vfinite v).
Proof.
  intros Hb Hf Wg Wp Hc.
  destruct (community_layout_ok B Hkeys g p s Wg Wp Hc)
    as (d & pc & pos & Rf & _ & Rc & Rn & R & Ks & F).
  destruct (position_communities_ok B Hkeys g p s 3 Wp (edges_covered g p Wg Hc))
    as (d' & pc' & Rf' & _ & Rc' & _ & Gc).
  assert (d' = d) by congruence. subst d'.
  assert (pc' = pc) by congruence. subst pc'.
  destruct Hf as [Fin Add].
  exists d, pc. eexists. eexists. eexists. exists pos.
  split; [exact Rf |]. split; [exact Rc |]. split; [exact Rn |].
  split; [exact R |]. split.
  { intros E. apply keys_nil. now rewrite Ks. }
  split.
  { intros c I. apply hypergraph_nodes. now apply py_set_In. }
  split.
  { intros n c Gp. destruct (Gc n c Gp) as (a & Ga & Gpc).
    exists a. split; [exact Gpc |].
    destruct (Hb _ _ _ _ _ scale_nonneg_3 Ga) as [W1 W2].
    split; eapply Fin; eassumption. }
  split.
  { intros n I. destruct (F n I) as (c & a & o & _ & _ & _ & Go & Gpn & _).
    exists o. split; [exact Gpn |].
    destruct (Hb _ _ _ _ _ scale_nonneg_1 Go) as [W1 W2].
    split; eapply Fin; eassumption. }
  intros n I. destruct (F n I) as (c & a & o & _ & Ga & _ & Go & _ & G).
  exists (vadd a o). split; [exact G |].
  apply vadd_finite; [now split | |].
  - apply (Hb _ _ _ _ _ scale_nonneg_3 Ga).
  - apply (Hb _ _ _ _ _ scale_nonneg_1 Go).
Qed.

(** C10. Entries of the partition for nodes that are not in the graph
    raise nothing and reach no output: when the partition covers the
    graph's nodes, [community_layout] returns a dictionary whose keys are
    the graph's nodes and no other, the subgraph taken for a community
    drops the members that are not in the graph, and a node outside the
    graph has an anchor but neither an offset nor a position. *)
Theorem extra_partition_entries_are_ignored g p s :
  wf_graph g -> wf_dict p -> covers p g ->
  exists pc w1 pn w2 pos,
    _position_communities B 3 (mkWorld g p s) = (Ok pc, w1) /\
    _position_nodes B 1 w1 = (Ok pn, w2) /\
    community_layout B (mkWorld g p s) = (Ok pos, w2) /\
    keys pos = nodes g /\
    (forall ns n, In n (nodes (subgraph g ns)) -> In n (nodes g)) /\
    (forall n, In n (keys p) -> ~ In n (nodes g) ->
       (exists a, get pc n = Some a) /\ get pn n = None /\ get pos n = None).
Proof.
  intros Wg Wp Hc.
  destruct (community_layout_ok B Hkeys g p s Wg Wp Hc)
    as (d & pc & pos & Rf & _ & Rc & Rn & R & Ks & F).
  destruct (position_communities_ok B Hkeys g p s 3 Wp (edges_covered g p Wg Hc))
    as (d' & pc' & Rf' & _ & Rc' & _ & Gc).
  assert (d' = d) by congruence. subst d'.
  assert (pc' = pc) by congruence. subst pc'.
  exists pc. eexists. eexists. eexists. exists pos.
  split; [exact Rc |]. split; [exact Rn |]. split; [exact R |].
  split; [exact Ks |]. split.
  { intros ns n I. now apply subgraph_nodes in I. }
  intros n Ip Ng. split; [| split].
  - destruct (keys_get p n Ip) as [c Gp].
    destruct (Gc n c Gp) as (a & _ & Gpc). now exists a.
  - apply get_None. rewrite position_nodes_keys by exact Hkeys. tauto.
  - apply get_None. now rewrite Ks.
Qed.
End Coverage.

(** ** The theorems at work *)


Lemma community_layout_one_finite_position_per_node_witness :
  exists pos w',
    community_layout Toy.backend (@mkWorld Toy.backend Example.g Example.p 0)
      = (Ok pos, w') /\
    keys pos = nodes Example.g /\ wf_dict pos /\
    (forall n, In n (nodes Example.g) <-> exists v, get pos n = Some v) /\
    (forall n v, get pos n = Some v -> vfinite v).
Proof.
  exact (community_layout_one_finite_position_per_node Toy.backend
           Example.g Example.p 0
           toy_layout_keys toy_layout_bounded toy_float_bounds
           example_wf_g example_wf_p example_covers_p).
Defined.

Lemma community_layout_adds_anchor_and_offset_witness :
  exists pc w1 pn w2 pos,
    _position_communities Toy.backend 3
      (@mkWorld Toy.backend Example.g Example.p 0) = (Ok pc, w1) /\
    _position_nodes Toy.backend 1 w1 = (Ok pn, w2) /\
    community_layout Toy.backend (@mkWorld Toy.backend Example.g Example.p 0)
      = (Ok pos, w2) /\
    (1 < 3)%Q /\
    forall n, In n (nodes Example.g) ->
      exists a o,
        get pc n = Some a /\ get pn n = Some o /\
        get pos n = Some (fadd Toy.backend (fst a) (fst o),
                          fadd Toy.backend (snd a) (snd o)).
Proof.
  exact (community_layout_adds_anchor_and_offset Toy.backend
           Example.g Example.p 0
           toy_layout_keys example_wf_g example_wf_p example_covers_p).
Defined.

Lemma find_between_community_edges_exact_witness :
  exists d,
    _find_between_community_edges Toy.backend
      (@mkWorld Toy.backend Example.g Example.p 0)
      = (Ok d, @mkWorld Toy.backend Example.g Example.p 0) /\
    d = [((10, 21), [(2, 3)])] /\
    get d (10, 21) = Some (crossing_edges Example.p (edges Example.g) 10 21).
Proof.
  destruct (find_between_community_edges_exact Toy.backend
              Example.g Example.p 0 10 21
              example_wf_g example_covers_p ltac:(discriminate))
    as [(d & R & _ & _ & G & _) _].
  exists d. split; [exact R |].
  assert (E : d = [((10, 21), [(2, 3)])]) by (vm_compute in R; congruence).
  split; [exact E |]. apply G. rewrite E. now left.
Defined.

Lemma community_layout_raises_on_missing_node_witness :
  exists k w',
    community_layout Toy.backend
      (@mkWorld Toy.backend Example.g Example.p_short 0)
    = (Raise (KeyError k), w').
Proof.
  apply (community_layout_raises_on_missing_node Toy.backend
           Example.g Example.p_short 0 5).
  - simpl. tauto.
  - reflexivity.
Defined.

Lemma same_community_same_anchor_witness :
  exists pc w1 pn w2 pos (anchor : option (vec Toy.backend)),
    _position_communities Toy.backend 3
      (@mkWorld Toy.backend Example.g Example.p_one 0) = (Ok pc, w1) /\
    _position_nodes Toy.backend 1 w1 = (Ok pn, w2) /\
    community_layout Toy.backend
      (@mkWorld Toy.backend Example.g Example.p_one 0) = (Ok pos, w2) /\
    forall n, In n (nodes Example.g) ->
      exists a o,
        anchor = Some a /\ get pc n = Some a /\
        get pn n = Some o /\
        get pos n = Some (fadd Toy.backend (fst a) (fst o),
                          fadd Toy.backend (snd a) (snd o)).
Proof.
  exact (proj2 (same_community_same_anchor Toy.backend toy_layout_keys
                  Example.g Example.p_one 0 3
                  example_wf_g example_wf_p_one example_covers_p_one)
           10 example_one_community).
Defined.



Lemma degenerate_inputs_are_laid_out_witness :
  exists d pc w1 pn w2 pos,
    _find_between_community_edges Toy.backend
      (@mkWorld Toy.backend Example.g_single Example.p_single 0)
      = (Ok d, @mkWorld Toy.backend Example.g_single Example.p_single 0) /\
    _position_communities Toy.backend 3
      (@mkWorld Toy.backend Example.g_single Example.p_single 0) = (Ok pc, w1) /\
    _position_nodes Toy.backend 1 w1 = (Ok pn, w2) /\
    community_layout Toy.backend
      (@mkWorld Toy.backend Example.g_single Example.p_single 0) = (Ok pos, w2) /\
    (nodes Example.g_single = [] -> pos = []) /\
    (forall c, In c (values Example.p_single) ->
       In c (nodes (hypergraph_of (py_set (values Example.p_single)) d))) /\
    (forall n c, get Example.p_single n = Some c ->
       exists a, get pc n = Some a /\ vfinite a) /\
    (forall n, In n (nodes Example.g_single) ->
       exists o, get pn n = Some o /\ vfinite o) /\
    (forall n, In n (nodes Example.g_single) ->
       exists v, get pos n = Some v /\ vfinite v).
Proof.
  exact (degenerate_inputs_are_laid_out Toy.backend toy_layout_keys
           Example.g_single Example.p_single 0
           toy_layout_bounded toy_float_bounds
           example_wf_g_single example_wf_p_single example_covers_p_single).
Defined.

Lemma extra_partition_entries_are_ignored_witness :
  exists pc w1 pn w2 pos,
    _position_communities Toy.backend 3
      (@mkWorld Toy.backend Example.g Example.p 0) = (Ok pc, w1) /\
    _position_nodes Toy.backend 1 w1 = (Ok pn, w2) /\
    community_layout Toy.backend (@mkWorld Toy.backend Example.g Example.p 0)
      = (Ok pos, w2) /\
    keys pos = nodes Example.g /\
    (forall ns n, In n (nodes (subgraph Example.g ns)) -> In n (nodes Example.g)) /\
    (forall n, In n (keys Example.p) -> ~ In n (nodes Example.g) ->
       (exists a, get pc n = Some a) /\ get pn n = None /\ get pos n = None).
Proof.
  exact (extra_partition_entries_are_ignored Toy.backend toy_layout_keys
           Example.g Example.p 0
           example_wf_g example_wf_p example_covers_p).
Defined.

(** ** Further properties of the four functions *)

Section MoreLoops.
Variable B : Backend.

(** When a loop raises, the exception is one a turn of its body raised. *)
Lemma for_each_raise_inv {A S} (P : exn -> Prop) (body : A -> S -> M B S)
    (l : list A) :
  (forall x acc w e w', In x l -> body x acc w = (Raise e, w') -> P e) ->
  forall acc w e w', for_each l body acc w = (Raise e, w') -> P e.
Proof.
  intros Step.
  assert (G : forall l', incl l' l -> forall acc w e w',
               for_each l' body acc w = (Raise e, w') -> P e).
  { induction l' as [| x l' IH]; intros Sub acc w e w' R.
    - discriminate.
    - simpl in R. unfold bind in R.
      destruct (body x acc w) as [[acc1 | e1] w1] eqn:Rb.
      + apply (IH (proj2 (incl_cons_inv Sub)) acc1 w1 e w' R).
      + inversion R; subst.
        apply (Step x acc w e w'); [apply Sub; now left | exact Rb]. }
  apply G, incl_refl.
Qed.
End MoreLoops.

Section Concat.
Context {K A : Type} `{EqDec K}.

Lemma concat_values_set_new (d : dict K (list A)) k l :
  get d k = None -> concat (values (set d k l)) = concat (values d) ++ l.
Proof.
  induction d as [| [k' v'] d IH]; simpl; intros G.
  - apply app_nil_r.
  - destruct (eq_dec k k'); [discriminate |]. simpl.
    rewrite IH by exact G. now rewrite app_assoc.
Qed.

Lemma concat_values_set_snoc (d : dict K (list A)) k l x :
  get d k = Some l ->
  Permutation (concat (values (set d k (l ++ [x])))) (concat (values d) ++ [x]).
Proof.
  induction d as [| [k' v'] d IH]; simpl; intros G.
  - discriminate.
  - destruct (eq_dec k k').
    + inversion G; subst. simpl. rewrite <- !app_assoc.
      apply Permutation_app_head, Permutation_app_comm.
    + simpl. rewrite <- app_assoc. apply Permutation_app_head. now apply IH.
Qed.
End Concat.

(** *** The edge finder, turn by turn *)

Section Finder.
Variable B : Backend.

Lemma find_between_unfold (w : world B) :
  _find_between_community_edges B w
  = for_each (edges (w_graph w)) (between_turn B) empty w.
Proof. reflexivity. Qed.

Lemma between_turn_ok g p s ni nj a b acc :
  get p ni = Some a -> get p nj = Some b ->
  between_turn B (ni, nj) acc (mkWorld g p s)
  = (Ok (between_step a b (ni, nj) acc), mkWorld g p s).
Proof.
  intros Ga Gb. unfold between_turn, between_step.
  rewrite (bind_ok B _ _ _ _ _ (partition_getitem_ok B g p s ni a Ga)).
  rewrite (bind_ok B _ _ _ _ _ (partition_getitem_ok B g p s nj b Gb)).
  destruct (eq_dec a b); [reflexivity |].
  now destruct (get acc (a, b)).
Qed.

Lemma between_turn_raise g p s ni nj acc :
  covered p (ni, nj) = false ->
  exists k,
    between_turn B (ni, nj) acc (mkWorld g p s)
    = (Raise (KeyError k), mkWorld g p s) /\
    get p k = None /\ (k = ni \/ k = nj).
Proof.
  unfold covered. simpl. intros C. unfold between_turn.
  destruct (get p ni) as [a |] eqn:Ga.
  - destruct (get p nj) as [b |] eqn:Gb; [discriminate |].
    exists nj. split; [| tauto].
    rewrite (bind_ok B _ _ _ _ _ (partition_getitem_ok B g p s ni a Ga)).
    apply bind_raise. unfold partition_getitem. simpl. now rewrite Gb.
  - exists ni. split; [| tauto].
    apply bind_raise. unfold partition_getitem. simpl. now rewrite Ga.
Qed.

Lemma covered_get p ni nj :
  covered p (ni, nj) = true ->
  exists a b, get p ni = Some a /\ get p nj = Some b.
Proof.
  unfold covered. simpl.
  destruct (get p ni) as [a |]; [| discriminate].
  destruct (get p nj) as [b |]; [| discriminate].
  intros _. now exists a, b.
Qed.

Lemma covered_keys p es :
  forallb (covered p) es = true <->
  forall u v, In (u, v) es -> In u (keys p) /\ In v (keys p).
Proof.
  rewrite forallb_forall. split.
  - intros F u v I. destruct (covered_get p u v (F _ I)) as (a & b & Ga & Gb).
    split; eapply get_Some_keys; eassumption.
  - intros F [u v] I. destruct (F u v I) as [Iu Iv].
    apply keys_get in Iu. apply keys_get in Iv.
    destruct Iu as [a Ga]. destruct Iv as [b Gb].
    unfold covered. simpl. now rewrite Ga, Gb.
Qed.

(** With every end known, the loop returns the fold and leaves the
    world alone. *)
Lemma between_loop_ok g p s es : forall acc,
  forallb (covered p) es = true ->
  for_each es (between_turn B) acc (mkWorld g p s)
  = (Ok (between_fold p es acc), mkWorld g p s).
Proof.
  induction es as [| [ni nj] es IH]; intros acc C; [reflexivity |].
  simpl in C. apply andb_prop in C. destruct C as [C Ces].
  destruct (covered_get p ni nj C) as (a & b & Ga & Gb).
  cbn [for_each]. rewrite (bind_ok B _ _ _ _ _ (between_turn_ok g p s ni nj a b acc Ga Gb)).
  rewrite IH by exact Ces. unfold between_fold. simpl. now rewrite Ga, Gb.
Qed.

(** With an end unknown, the loop raises at the first such edge. *)
Lemma between_loop_raise g p s es : forall acc,
  forallb (covered p) es = false ->
  exists k,
    for_each es (between_turn B) acc (mkWorld g p s)
    = (Raise (KeyError k), mkWorld g p s) /\
    get p k = None /\ exists u v, In (u, v) es /\ (k = u \/ k = v).
Proof.
  induction es as [| [ni nj] es IH]; intros acc C; [discriminate |].
  simpl in C. destruct (covered p (ni, nj)) eqn:Ch.
  - simpl in C. destruct (covered_get p ni nj Ch) as (a & b & Ga & Gb).
    destruct (IH (between_step a b (ni, nj) acc) C) as (k & R & Gk & u & v & I & E).
    exists k. split.
    + cbn [for_each].
      now rewrite (bind_ok B _ _ _ _ _ (between_turn_ok g p s ni nj a b acc Ga Gb)).
    + split; [exact Gk |]. exists u, v. split; [now right | exact E].
  - destruct (between_turn_raise g p s ni nj acc Ch) as (k & R & Gk & E).
    exists k. split.
    + cbn [for_each]. now apply bind_raise.
    + split; [exact Gk |]. exists ni, nj. split; [now left | exact E].
Qed.

Lemma inter_at p ni nj a b :
  get p ni = Some a -> get p nj = Some b ->
  inter p (ni, nj) = if eq_dec a b then false else true.
Proof. intros Ga Gb. unfold inter. simpl. now rewrite Ga, Gb. Qed.

(** The fold skips the edges inside a community. *)
Lemma between_fold_filter p es : forall acc,
  forallb (covered p) es = true ->
  between_fold p es acc = between_fold p (filter (inter p) es) acc.
Proof.
  induction es as [| [ni nj] es IH]; intros acc C; [reflexivity |].
  simpl in C. apply andb_prop in C. destruct C as [C Ces].
  destruct (covered_get p ni nj C) as (a & b & Ga & Gb).
  simpl filter. rewrite (inter_at p ni nj a b Ga Gb).
  unfold between_fold at 1. simpl fold_left. rewrite Ga, Gb.
  fold (between_fold p es (between_step a b (ni, nj) acc)).
  rewrite IH by exact Ces.
  unfold between_step at 1. destruct (eq_dec a b) as [E | N].
  - reflexivity.
  - unfold between_fold at 2. simpl fold_left. rewrite Ga, Gb.
    unfold between_step at 2. destruct (eq_dec a b); [contradiction |]. reflexivity.
Qed.

(** Every edge between two communities is filed once. *)
Lemma between_fold_perm p es : forall acc,
  forallb (covered p) es = true ->
  Permutation (concat (values (between_fold p es acc)))
              (concat (values acc) ++ filter (inter p) es).
Proof.
  induction es as [| [ni nj] es IH]; intros acc C.
  - simpl. now rewrite app_nil_r.
  - simpl in C. apply andb_prop in C. destruct C as [C Ces].
    destruct (covered_get p ni nj C) as (a & b & Ga & Gb).
    simpl filter. rewrite (inter_at p ni nj a b Ga Gb).
    unfold between_fold. simpl fold_left. rewrite Ga, Gb.
    fold (between_fold p es (between_step a b (ni, nj) acc)).
    eapply Permutation_trans; [apply IH, Ces |].
    unfold between_step. destruct (eq_dec a b) as [E | N]; [reflexivity |].
    change ((ni, nj) :: filter (inter p) es)
      with ([(ni, nj)] ++ filter (inter p) es).
    rewrite app_assoc. apply Permutation_app_tail.
    destruct (get acc (a, b)) as [l |] eqn:G.
    + now apply concat_values_set_snoc.
    + now rewrite concat_values_set_new.
Qed.
End Finder.

(** *** The inter-community positioner, stage by stage *)

Section Anchors.
Variable B : Backend.

Lemma anchor_loop_run (anchors : dict Z (vec B)) (w : world B) its :
  forall pos,
    for_each its (anchor_turn B anchors) pos w
    = (anchor_fold B anchors its pos, w).
Proof.
  induction its as [| [node community] its IH]; intros pos; [reflexivity |].
  cbn [for_each anchor_fold]. unfold anchor_turn at 1.
  destruct (get anchors community) as [a |] eqn:G.
  - erewrite bind_ok; [apply IH |].
    erewrite bind_ok by (apply getitem_ok; exact G). reflexivity.
  - apply bind_raise. apply bind_raise. now apply getitem_raise.
Qed.

(** Once the finder has returned [d], the rest of
    [_position_communities] is one call of the solver and the last
    loop. *)
Lemma position_communities_run g p s sc d :
  _find_between_community_edges B (mkWorld g p s) = (Ok d, mkWorld g p s) ->
  _position_communities B sc (mkWorld g p s)
  = (anchor_fold B (fst (anchors_of B p d sc s)) p empty,
     mkWorld g p (snd (anchors_of B p d sc s))).
Proof.
  intros R. unfold _position_communities.
  rewrite (bind_ok B _ _ _ _ _ R).
  erewrite bind_ok by reflexivity. cbv zeta.
  erewrite bind_ok by apply nx_spring_layout_run.
  erewrite bind_ok by reflexivity.
  apply (anchor_loop_run _ _ p).
Qed.

Lemma find_between_run_ok g p s :
  forallb (covered p) (edges g) = true ->
  _find_between_community_edges B (mkWorld g p s)
  = (Ok (between_fold p (edges g) empty), mkWorld g p s).
Proof. intros C. rewrite find_between_unfold. now apply between_loop_ok. Qed.

Lemma find_between_run_raise g p s :
  forallb (covered p) (edges g) = false ->
  exists k,
    _find_between_community_edges B (mkWorld g p s)
    = (Raise (KeyError k), mkWorld g p s) /\
    get p k = None /\ exists u v, In (u, v) (edges g) /\ (k = u \/ k = v).
Proof. intros C. rewrite find_between_unfold. now apply between_loop_raise. Qed.

Lemma uncovered_edge p es u v :
  In (u, v) es -> get p u = None \/ get p v = None ->
  forallb (covered p) es = false.
Proof.
  intros I G. destruct (forallb (covered p) es) eqn:C; [| reflexivity].
  rewrite forallb_forall in C. specialize (C _ I). unfold covered in C. simpl in C.
  destruct G as [G | G]; rewrite G in C;
    [discriminate | destruct (get p u); discriminate].
Qed.

(** X1. When the partition lacks an end of some edge,
    [_find_between_community_edges] raises [KeyError] on a node that is
    an end of an edge and that the partition lacks, and it leaves the
    world, the generator included, as it was. *)
Theorem find_between_raises_on_an_unknown_end g p s u v :
  In (u, v) (edges g) -> get p u = None \/ get p v = None ->
  exists k,
    _find_between_community_edges B (mkWorld g p s)
    = (Raise (KeyError k), mkWorld g p s) /\
    get p k = None /\ exists u' v', In (u', v') (edges g) /\ (k = u' \/ k = v').
Proof.
  intros I G. apply find_between_run_raise. now apply uncovered_edge with u v.
Qed.

(** X2. When the partition knows both ends of every edge, the lists
    [_find_between_community_edges] returns hold, together, every edge
    that joins two different communities exactly once and no other edge:
    their lengths add up to the number of such edges. *)
Theorem find_between_files_each_crossing_edge_once g p s :
  (forall u v, In (u, v) (edges g) -> In u (keys p) /\ In v (keys p)) ->
  exists d,
    _find_between_community_edges B (mkWorld g p s) = (Ok d, mkWorld g p s) /\
    Permutation (concat (values d)) (filter (inter p) (edges g)) /\
    list_sum (map (fun kv => length (snd kv)) d)
    = length (filter (inter p) (edges g)).
Proof.
  intros Tot. apply covered_keys in Tot.
  exists (between_fold p (edges g) empty).
  split; [now apply find_between_run_ok |].
  pose proof (between_fold_perm p (edges g) empty Tot) as P. simpl in P.
  split; [exact P |].
  rewrite <- (Permutation_length P), length_concat.
  unfold values. now rewrite map_map.
Qed.

(** X3. The anchors depend on the graph through its edges between
    different communities only: two graphs with the same such edges,
    whatever their nodes and their edges inside communities, get the same
    dictionary from the finder, the same result from
    [_position_communities] and leave the generator in the same state. *)
Theorem position_communities_sees_only_crossing_edges g1 g2 p s sc :
  (forall u v, In (u, v) (edges g1) -> In u (keys p) /\ In v (keys p)) ->
  (forall u v, In (u, v) (edges g2) -> In u (keys p) /\ In v (keys p)) ->
  filter (inter p) (edges g1) = filter (inter p) (edges g2) ->
  fst (_find_between_community_edges B (mkWorld g1 p s))
  = fst (_find_between_community_edges B (mkWorld g2 p s)) /\
  fst (_position_communities B sc (mkWorld g1 p s))
  = fst (_position_communities B sc (mkWorld g2 p s)) /\
  w_rng (snd (_position_communities B sc (mkWorld g1 p s)))
  = w_rng (snd (_position_communities B sc (mkWorld g2 p s))).
Proof.
  intros T1 T2 E. apply covered_keys in T1. apply covered_keys in T2.
  pose proof (find_between_run_ok g1 p s T1) as R1.
  pose proof (find_between_run_ok g2 p s T2) as R2.
  assert (D : between_fold p (edges g1) empty = between_fold p (edges g2) empty).
  { rewrite (between_fold_filter p (edges g1)) by exact T1.
    rewrite (between_fold_filter p (edges g2)) by exact T2. now rewrite E. }
  rewrite (position_communities_run g1 p s sc _ R1).
  rewrite (position_communities_run g2 p s sc _ R2).
  rewrite R1, R2, D. repeat split.
Qed.
End Anchors.

Section AnchorsReturn.
Variable B : Backend.
Hypothesis Hkeys : layout_keys B.

(** X4. [_position_communities] returns exactly when the partition
    knows both ends of every edge; nodes of the graph that the partition
    lacks do not matter to it when no edge touches them.  When it
    returns, it gives an anchor to every key of the partition, in the
    partition's order; when it raises, it names a node the partition
    lacks and has not called the solver: the generator is as it was. *)
Theorem position_communities_returns_iff_edge_ends_known g p s sc :
  wf_dict p ->
  ((forall u v, In (u, v) (edges g) -> In u (keys p) /\ In v (keys p)) ->
   exists pc s',
     _position_communities B sc (mkWorld g p s) = (Ok pc, mkWorld g p s') /\
     keys pc = keys p) /\
  (forall u v,
     In (u, v) (edges g) -> get p u = None \/ get p v = None ->
     exists k,
       _position_communities B sc (mkWorld g p s)
       = (Raise (KeyError k), mkWorld g p s) /\
       get p k = None).
Proof.
  intros Wp. split.
  - intros Tot.
    destruct (position_communities_ok B Hkeys g p s sc Wp Tot)
      as (d & pc & _ & _ & R & Ks & _).
    exists pc. eexists. split; [exact R | exact Ks].
  - intros u v I G.
    destruct (find_between_run_raise B g p s (uncovered_edge p _ u v I G))
      as (k & R & Gk & _).
    exists k. split; [| exact Gk].
    unfold _position_communities. now apply bind_raise.
Qed.
End AnchorsReturn.

(** *** The shape of the meta-graph *)

Section MetaGraph.
Variable B : Backend.

Lemma add_node_NoDup g n : NoDup (nodes g) -> NoDup (nodes (add_node g n)).
Proof.
  intros ND. unfold add_node. destruct (mem n (nodes g)) eqn:E; [exact ND |].
  simpl. apply mem_false in E.
  apply NoDup_app; [exact ND | repeat constructor; simpl; tauto |].
  intros x Hx [<- | []]. contradiction.
Qed.

Lemma add_nodes_from_NoDup ns : forall g,
  NoDup (nodes g) -> NoDup (nodes (add_nodes_from g ns)).
Proof.
  unfold add_nodes_from.
  induction ns as [| n ns IH]; intros g ND; simpl; [exact ND |].
  now apply IH, add_node_NoDup.
Qed.

Lemma add_edge_NoDup g u v w : NoDup (nodes g) -> NoDup (nodes (add_edge g u v w)).
Proof. intros ND. unfold add_edge. simpl. now apply add_node_NoDup, add_node_NoDup. Qed.

Lemma fold_add_edge_NoDup (d : dict (Z * Z) (list (Z * Z))) : forall h,
  NoDup (nodes h) ->
  NoDup (nodes (fold_left
                  (fun h '((ci, cj), edges) => add_edge h ci cj (length edges))
                  d h)).
Proof.
  induction d as [| [[ci cj] l] d IH]; intros h ND; simpl; [exact ND |].
  now apply IH, add_edge_NoDup.
Qed.

Lemma fold_add_edge_nodes_inv (d : dict (Z * Z) (list (Z * Z))) : forall h c,
  In c (nodes (fold_left
                 (fun h '((ci, cj), edges) => add_edge h ci cj (length edges))
                 d h)) ->
  In c (nodes h) \/ exists ci cj, In (ci, cj) (keys d) /\ (c = ci \/ c = cj).
Proof.
  induction d as [| [[ci cj] l] d IH]; intros h c I; simpl in I; [now left |].
  apply IH in I. destruct I as [I | (a & b & I & E)].
  - apply add_edge_nodes in I. destruct I as [I | E]; [now left |].
    right. exists ci, cj. split; [now left | exact E].
  - right. exists a, b. split; [now right | exact E].
Qed.

(** X5. When the partition knows both ends of every edge, the
    meta-graph built from the finder's dictionary is a directed graph
    whose nodes are the communities the partition uses, each once,
    whether a node of the graph belongs to them or not; it has no loop
    and no two edges between the same ordered pair, and the weight of the
    edge from [ci] to [cj] is the number, at least one, of the edges that
    leave [ci] for [cj]. *)
Theorem meta_graph_shape g p s :
  (forall u v, In (u, v) (edges g) -> In u (keys p) /\ In v (keys p)) ->
  exists d,
    _find_between_community_edges B (mkWorld g p s) = (Ok d, mkWorld g p s) /\
    let H := hypergraph_of (py_set (values p)) d in
    directed H = true /\
    NoDup (nodes H) /\
    (forall c, In c (nodes H) <-> In c (values p)) /\
    NoDup (edges H) /\
    forall ci cj w,
      In (ci, cj, w) (edge_data H) ->
      ci <> cj /\ In ci (nodes H) /\ In cj (nodes H) /\
      w = Some (length (crossing_edges p (edges g) ci cj)) /\
      (1 <= length (crossing_edges p (edges g) ci cj))%nat.
Proof.
  intros Tot.
  destruct (find_between_ok B (mkWorld g p s) Tot) as (d & R & Sp).
  simpl in Sp. exists d. split; [exact R |]. cbv zeta.
  assert (Ends : forall ci cj, In (ci, cj) (keys d) ->
            ci <> cj /\ In ci (values p) /\ In cj (values p)).
  { intros ci cj I. apply (between_spec_keys p (edges g) d ci cj Sp) in I.
    destruct I as (N & u & v & _ & Gu & Gv). split; [exact N |].
    split; eapply values_In, get_Some_In; eassumption. }
  assert (Nodes : forall c, In c (nodes (hypergraph_of (py_set (values p)) d))
                            <-> In c (values p)).
  { intros c. split.
    - intros I. unfold hypergraph_of, items in I.
      apply fold_add_edge_nodes_inv in I. destruct I as [I | (ci & cj & I & E)].
      + apply add_nodes_from_nodes in I. destruct I as [[] | I].
        now apply py_set_In.
      + destruct (Ends ci cj I) as (_ & Ii & Ij). destruct E; now subst.
    - intros I. apply hypergraph_nodes. now apply py_set_In. }
  split.
  { unfold hypergraph_of, items.
    assert (D : forall (l : dict (Z * Z) (list (Z * Z))) h,
              directed (fold_left
                (fun h '((ci, cj), edges) => add_edge h ci cj (length edges)) l h)
              = directed h).
    { induction l as [| [[ci cj] x] l IH]; intros h; simpl; [reflexivity |].
      now rewrite IH, add_edge_directed. }
    now rewrite D, add_nodes_from_directed. }
  split.
  { unfold hypergraph_of, items. apply fold_add_edge_NoDup, add_nodes_from_NoDup.
    constructor. }
  split; [exact Nodes |].
  split.
  { unfold edges. rewrite hypergraph_edge_data by exact (proj1 Sp).
    rewrite map_map. unfold weighted. simpl. exact (proj1 Sp). }
  intros ci cj w I. rewrite hypergraph_edge_data in I by exact (proj1 Sp).
  apply in_map_iff in I. destruct I as [[k l] [E I]].
  unfold weighted in E. simpl in E. inversion E; subst.
  assert (Ik : In (ci, cj) (keys d)).
  { change (ci, cj) with (fst (ci, cj, l)). now apply in_map. }
  destruct (Ends ci cj Ik) as (N & Ii & Ij).
  split; [exact N |]. split; [now apply Nodes |]. split; [now apply Nodes |].
  pose proof (between_spec_get p (edges g) d ci cj Sp Ik) as G.
  rewrite (In_get d (ci, cj) l (proj1 Sp) I) in G. inversion G; subst.
  split; [reflexivity |].
  destruct Sp as [ND Sp]. specialize (Sp ci cj).
  rewrite (In_get d (ci, cj) _ ND I) in Sp.
  destruct (eq_dec ci cj); [discriminate |].
  destruct (crossing_edges p (edges g) ci cj); [discriminate | simpl; lia].
Qed.
End MetaGraph.

(** *** The intra-community positioner, stage by stage *)

Section Offsets.
Variable B : Backend.

Lemma keys_snoc (p : dict Z Z) n c : keys (p ++ [(n, c)]) = keys p ++ [n].
Proof. unfold keys. now rewrite map_app. Qed.

Lemma group_by_community_perm p :
  Permutation (concat (values (group_by_community p))) (keys p).
Proof.
  induction p as [| [n c] p IH] using rev_ind; [reflexivity |].
  rewrite group_by_community_snoc, keys_snoc.
  destruct (get (group_by_community p) c) as [l |] eqn:G.
  - eapply Permutation_trans; [now apply concat_values_set_snoc |].
    now apply Permutation_app_tail.
  - rewrite concat_values_set_new by exact G. now apply Permutation_app_tail.
Qed.

(** X6. The first loop of [_position_nodes] sorts the keys of the
    partition into one list per community: a community has a list exactly
    when the partition uses it, no list is empty, a list holds the nodes
    the partition maps to its community, in the partition's order, and
    the lists together hold every key of the partition exactly once. *)
Theorem group_by_community_partitions_the_keys p :
  wf_dict (group_by_community p) /\
  Permutation (concat (values (group_by_community p))) (keys p) /\
  (forall c, In c (keys (group_by_community p)) <-> In c (values p)) /\
  (forall c ms, In (c, ms) (group_by_community p) ->
     ms <> [] /\ ms = members p c /\ forall n, In n ms <-> In (n, c) p).
Proof.
  destruct (group_by_community_spec p) as [ND Sp].
  split; [exact ND |]. split; [apply group_by_community_perm |]. split.
  - intros c. split.
    + intros I. apply keys_get in I. destruct I as [ms G].
      rewrite Sp in G. destruct (members p c) as [| n ms'] eqn:M; [discriminate |].
      assert (Im : In n (members p c)) by (rewrite M; now left).
      apply members_In in Im. now apply values_In with (n := n).
    + intros I. apply in_map_iff in I. destruct I as [[n c'] [E I]].
      simpl in E. subst c'.
      apply group_by_community_has in I.
      change c with (fst (c, members p c)). now apply in_map.
  - intros c ms I. destruct (group_by_community_In p c ms I) as [-> N].
    split; [exact N |]. split; [reflexivity |]. intros n. apply members_In.
Qed.

Lemma layout_each_NoDup g sc cs : forall pos s,
  wf_dict pos -> wf_dict (fst (layout_each B g sc cs pos s)).
Proof.
  induction cs as [| [ci ns] cs IH]; intros pos s ND; [exact ND |].
  simpl. apply IH. now apply NoDup_keys_update.
Qed.

(** X7. [_position_nodes] never raises, whatever the graph and the
    partition: the dictionary it returns has one entry for each node that
    is both in the graph and in the partition, and no other; a node of the
    graph that the partition lacks just gets no offset. *)
Theorem position_nodes_returns_offsets_of_known_graph_nodes g p s sc :
  layout_keys B ->
  exists pn s',
    _position_nodes B sc (mkWorld g p s) = (Ok pn, mkWorld g p s') /\
    wf_dict pn /\
    forall n, In n (keys pn) <-> In n (nodes g) /\ In n (keys p).
Proof.
  intros Hk. eexists. eexists. split; [apply position_nodes_run |].
  split; [apply layout_each_NoDup; constructor |].
  intros n. now apply position_nodes_keys.
Qed.

Lemma filter_through {A} (f h : A -> bool) (l : list A) :
  (forall x, In x l -> f x = true -> h x = true) ->
  filter f l = filter f (filter h l).
Proof.
  induction l as [| x l IH]; intros Imp; [reflexivity |].
  simpl. destruct (f x) eqn:Fx.
  - rewrite (Imp x (or_introl eq_refl) Fx). simpl. rewrite Fx.
    f_equal. apply IH. intros y I. apply Imp. now right.
  - destruct (h x); simpl; [rewrite Fx |]; apply IH; intros y I; apply Imp; now right.
Qed.

Lemma subgraph_inner_edges g p c :
  wf_dict p ->
  edge_data (subgraph g (members p c))
  = filter (fun e => mem (fst (fst e)) (members p c) && mem (snd (fst e)) (members p c))
      (filter (fun e => intra p (fst e)) (edge_data g)).
Proof.
  intros Wp. unfold subgraph. simpl. apply filter_through.
  intros [[u v] w] _ T. simpl in T. apply andb_prop in T. destruct T as [Tu Tv].
  apply mem_true in Tu. apply mem_true in Tv.
  apply (members_get p u c Wp) in Tu. apply (members_get p v c Wp) in Tv.
  unfold intra. simpl. rewrite Tu, Tv. destruct (eq_dec c c); congruence.
Qed.

Lemma layout_each_same_views g1 g2 sc cs : forall pos s,
  (forall c ms, In (c, ms) cs -> subgraph g1 ms = subgraph g2 ms) ->
  layout_each B g1 sc cs pos s = layout_each B g2 sc cs pos s.
Proof.
  induction cs as [| [ci ns] cs IH]; intros pos s V; [reflexivity |].
  simpl. rewrite (V ci ns (or_introl eq_refl)).
  apply IH. intros c ms I. apply (V c). now right.
Qed.

(** X8. The offsets depend on the graph through its nodes and its edges
    inside communities only: two graphs of the same kind with the same
    nodes and the same such edges, whatever their edges between
    communities, get the same result from [_position_nodes] and leave the
    generator in the same state. *)
Theorem position_nodes_sees_only_inner_edges g1 g2 p s sc :
  wf_dict p ->
  directed g1 = directed g2 -> nodes g1 = nodes g2 ->
  filter (fun e => intra p (fst e)) (edge_data g1)
  = filter (fun e => intra p (fst e)) (edge_data g2) ->
  fst (_position_nodes B sc (mkWorld g1 p s))
  = fst (_position_nodes B sc (mkWorld g2 p s)) /\
  w_rng (snd (_position_nodes B sc (mkWorld g1 p s)))
  = w_rng (snd (_position_nodes B sc (mkWorld g2 p s))).
Proof.
  intros Wp Ed En Ee. rewrite !position_nodes_run. simpl.
  rewrite (layout_each_same_views g1 g2 sc (group_by_community p)); [now split |].
  intros c ms I. apply group_by_community_In in I. destruct I as [-> _].
  pose proof (subgraph_inner_edges g1 p c Wp) as E1.
  pose proof (subgraph_inner_edges g2 p c Wp) as E2.
  unfold subgraph in *. simpl in E1, E2. rewrite E1, E2, Ed, En, Ee. reflexivity.
Qed.
End Offsets.

(** *** The composer, outcome by outcome *)

Section Outcome.
Variable B : Backend.
Hypothesis Hkeys : layout_keys B.

Lemma forallb_false {A} (f : A -> bool) (l : list A) :
  forallb f l = false -> exists x, In x l /\ f x = false.
Proof.
  induction l as [| x l IH]; simpl; [discriminate |].
  destruct (f x) eqn:Fx; simpl.
  - intros C. destruct (IH C) as (y & I & Fy). exists y. split; [now right | exact Fy].
  - intros _. exists x. split; [now left | exact Fx].
Qed.

(** The last loop raises when the anchors lack a node of the graph. *)
Lemma compose_loop_raises (pc pn : dict Z (vec B)) (ns : list Z) (w : world B) n :
  In n ns -> get pc n = None ->
  exists e w',
    for_each ns
      (fun node pos =>
         bind (getitem pc node) (fun a =>
         bind (getitem pn node) (fun o =>
         ret (set pos node (vadd a o)))))
      empty w = (Raise e, w').
Proof.
  intros I G. apply for_each_raises with (x := n); [| exact I].
  intros acc w0. exists (KeyError n), w0.
  now apply bind_raise, getitem_raise.
Qed.

(** X9. On a well-formed graph and partition, [community_layout] returns
    exactly when the partition has an entry for every node of the graph;
    when it raises, the [KeyError] names a node of the graph that the
    partition lacks. *)
Theorem community_layout_returns_iff_partition_covers_graph g p s :
  wf_graph g -> wf_dict p ->
  (covers p g <->
   exists pos w', community_layout B (mkWorld g p s) = (Ok pos, w')) /\
  (forall e w',
     community_layout B (mkWorld g p s) = (Raise e, w') ->
     exists k, e = KeyError k /\ In k (nodes g) /\ get p k = None).
Proof.
  intros Wg Wp.
  assert (Cases :
    covers p g \/
    exists k w', community_layout B (mkWorld g p s) = (Raise (KeyError k), w') /\
                 In k (nodes g) /\ get p k = None).
  { destruct (forallb (covered p) (edges g)) eqn:C.
    - pose proof (proj1 (covered_keys p (edges g)) C) as Tot.
      destruct (position_communities_ok B Hkeys g p s 3 Wp Tot)
        as (d & pc & _ & _ & Rc & Ks & _).
      destruct (forallb (fun n => mem n (keys p)) (nodes g)) eqn:Cv.
      + left. intros n I. rewrite forallb_forall in Cv. now apply mem_true, Cv.
      + right. apply forallb_false in Cv. destruct Cv as (n & I & Mn).
        apply mem_false in Mn.
        pose proof (position_nodes_run B g p (snd (anchors_of B p d 3 s)) 1) as Rn.
        pose proof (position_nodes_keys B Hkeys g p (snd (anchors_of B p d 3 s)) 1)
          as Kn.
        set (pn := fst (layout_each B g 1 (group_by_community p) empty
                          (snd (anchors_of B p d 3 s)))) in *.
        assert (Run : community_layout B (mkWorld g p s)
                      = for_each (nodes g)
                          (fun node pos =>
                             bind (getitem pc node) (fun a =>
                             bind (getitem pn node) (fun o =>
                             ret (set pos node (vadd a o)))))
                          empty
                          (mkWorld g p
                             (snd (layout_each B g 1 (group_by_community p) empty
                                     (snd (anchors_of B p d 3 s)))))).
        { unfold community_layout.
          rewrite (bind_ok B _ _ _ _ _ Rc), (bind_ok B _ _ _ _ _ Rn).
          now erewrite bind_ok by reflexivity. }
        assert (Gn : get pc n = None) by (apply get_None; now rewrite Ks).
        destruct (compose_loop_raises pc pn (nodes g)
                    (mkWorld g p
                       (snd (layout_each B g 1 (group_by_community p) empty
                               (snd (anchors_of B p d 3 s)))))
                    n I Gn) as (e & w' & R).
        rewrite <- Run in R.
        assert (P : exists k, e = KeyError k /\ In k (nodes g) /\ get p k = None).
        { rewrite Run in R.
          refine (for_each_raise_inv B
                    (fun e => exists k, e = KeyError k /\ In k (nodes g) /\ get p k = None)
                    _ _ _ _ _ _ _ R).
          intros x acc w0 e0 w0' Ix Rb. unfold bind in Rb.
          destruct (get pc x) as [a |] eqn:Gx.
          - rewrite (getitem_ok B pc x a w0 Gx) in Rb.
            destruct (get pn x) as [o |] eqn:Go.
            + rewrite (getitem_ok B pn x o w0 Go) in Rb. discriminate.
            + exfalso. apply get_None in Go. apply Go, Kn. split; [exact Ix |].
              rewrite <- Ks. now apply get_Some_keys in Gx.
          - rewrite (getitem_raise B pc x w0 Gx) in Rb. inversion Rb; subst.
            exists x. split; [reflexivity |]. split; [exact Ix |].
            apply get_None. rewrite <- Ks. now apply get_None. }
        destruct P as (k & -> & Ik & Gk). now exists k, w'.
    - right. destruct (find_between_run_raise B g p s C)
        as (k & R & Gk & u & v & I & E).
      exists k. eexists. split; [| split; [| exact Gk]].
      + unfold community_layout. apply bind_raise.
        unfold _position_communities. apply bind_raise. exact R.
      + destruct (proj2 Wg u v I) as [Iu Iv]. destruct E; now subst. }
  split.
  - split.
    + intros Hc. destruct (community_layout_ok B Hkeys g p s Wg Wp Hc)
        as (d & pc & pos & _ & _ & _ & _ & R & _).
      exists pos. eexists. exact R.
    + intros (pos & w' & R). destruct Cases as [Hc | (k & w1 & R1 & _)];
        [exact Hc | congruence].
  - intros e w' R. destruct Cases as [Hc | (k & w1 & R1 & Ik & Gk)].
    + destruct (community_layout_ok B Hkeys g p s Wg Wp Hc)
        as (d & pc & pos & _ & _ & _ & _ & R1 & _). congruence.
    + exists k. split; [congruence |]. now split.
Qed.
End Outcome.

Section RaisePoint.
Variable B : Backend.
Hypothesis Hkeys : layout_keys B.

Lemma for_each_app {A S} (body : A -> S -> M B S) (l1 l2 : list A) :
  forall acc w,
    for_each (l1 ++ l2) body acc w
    = bind (for_each l1 body acc) (fun acc' => for_each l2 body acc') w.
Proof.
  induction l1 as [| x l1 IH]; intros acc w; [reflexivity |].
  simpl. unfold bind in *.
  destruct (body x acc w) as [[acc1 | e] w1]; [| reflexivity].
  apply IH.
Qed.

(** X10. Where [community_layout] raises.  When the partition lacks an
    end of some edge, it raises before the solver is ever called: the
    world, the generator included, is as it was.  When the partition
    knows the ends of every edge but lacks a node of the graph, both
    layouts are computed first, and the [KeyError] names the first node,
    in the graph's order, that the partition lacks; the generator is left
    where the two stages drove it. *)
Theorem community_layout_raise_point g p s :
  wf_dict p -> NoDup (nodes g) ->
  (forall u v,
     In (u, v) (edges g) -> get p u = None \/ get p v = None ->
     exists k,
       community_layout B (mkWorld g p s) = (Raise (KeyError k), mkWorld g p s)) /\
  ((forall u v, In (u, v) (edges g) -> In u (keys p) /\ In v (keys p)) ->
   forall pre n post,
     nodes g = pre ++ n :: post ->
     (forall m, In m pre -> In m (keys p)) -> get p n = None ->
     community_layout B (mkWorld g p s)
     = (Raise (KeyError n),
        snd (bind (_position_communities B 3) (fun _ => _position_nodes B 1)
               (mkWorld g p s)))).
Proof.
  intros Wp Wg. split.
  - intros u v I G.
    destruct (find_between_run_raise B g p s (uncovered_edge p _ u v I G))
      as (k & R & _).
    exists k. unfold community_layout. apply bind_raise.
    unfold _position_communities. now apply bind_raise.
  - intros Tot pre n post En Hpre Gn.
    destruct (position_communities_ok B Hkeys g p s 3 Wp Tot)
      as (d & pc & _ & _ & Rc & Ks & Gc).
    pose proof (position_nodes_run B g p (snd (anchors_of B p d 3 s)) 1) as Rn.
    set (s1 := snd (anchors_of B p d 3 s)) in *.
    set (L := layout_each B g 1 (group_by_community p) empty s1) in *.
    rewrite (bind_ok B _ _ _ _ _ Rc), Rn. simpl snd.
    unfold community_layout.
    rewrite (bind_ok B _ _ _ _ _ Rc), (bind_ok B _ _ _ _ _ Rn).
    erewrite bind_ok by reflexivity. simpl w_graph. rewrite En.
    rewrite for_each_app.
    destruct (compose_loop B pc (fst L) pre (mkWorld g p (snd L)))
      as (pos & Rl & _).
    { rewrite En in Wg. now apply NoDup_app_remove_r in Wg. }
    { intros m Im. destruct (keys_get p m (Hpre m Im)) as [c Gp].
      destruct (Gc m c Gp) as (a & _ & Ga).
      assert (Ig : In m (nodes g)) by (rewrite En; apply in_or_app; now left).
      destruct (position_nodes_get B Hkeys g p s1 1 m c Wp Wg Ig Gp) as (E & o & Go).
      exists a, o. split; [exact Ga |]. fold L in E. now rewrite E. }
    rewrite (bind_ok B _ _ _ _ _ Rl). cbn [for_each].
    apply bind_raise, bind_raise, getitem_raise.
    apply get_None. rewrite Ks. now apply get_None.
Qed.

Lemma update_fresh {V : Type} (o : dict Z V) : forall d,
  NoDup (keys d ++ keys o) -> update d o = d ++ o.
Proof.
  unfold update, items.
  induction o as [| [k v] o IH]; intros d ND; simpl.
  - now rewrite app_nil_r.
  - assert (N : ~ In k (keys d)).
    { simpl in ND. apply NoDup_remove_2 in ND. intros I. apply ND.
      apply in_or_app. now left. }
    assert (E : set d k v = d ++ [(k, v)]).
    { clear IH ND. induction d as [| [k' v'] d IHd]; simpl; [reflexivity |].
      destruct (eq_dec k k') as [-> | Ne]; [exfalso; apply N; now left |].
      f_equal. apply IHd. intros I. apply N. now right. }
    rewrite E, IH.
    + now rewrite <- app_assoc.
    + unfold keys in *. rewrite map_app, <- app_assoc. exact ND.
Qed.

Lemma filter_all {A} (f : A -> bool) (l : list A) :
  (forall x, In x l -> f x = true) -> filter f l = l.
Proof.
  induction l as [| x l IH]; intros F; [reflexivity |].
  simpl. rewrite (F x (or_introl eq_refl)). f_equal.
  apply IH. intros y I. apply F. now right.
Qed.

Lemma subgraph_whole g p :
  wf_graph g -> covers p g -> subgraph g (keys p) = g.
Proof.
  intros [_ He] Hc. unfold subgraph. destruct g as [dir ns es]. simpl in *.
  f_equal.
  - apply filter_all. intros n I. now apply mem_true, Hc.
  - apply filter_all. intros [[u v] w] I. simpl.
    assert (Iuv : In (u, v) (edges (mkGraph dir ns es))).
    { unfold edges. simpl. change (u, v) with (fst (u, v, w)). now apply in_map. }
    destruct (He u v Iuv) as [Iu Iv].
    apply andb_true_intro. split; apply mem_true, Hc; assumption.
Qed.

Lemma group_one_community p c0 :
  (forall c, In c (values p) -> c = c0) -> p <> [] ->
  group_by_community p = [(c0, keys p)].
Proof.
  induction p as [| [n c] p IH] using rev_ind; intros One Ne; [contradiction |].
  assert (c = c0).
  { apply One. unfold values. rewrite map_app. apply in_or_app. right. now left. }
  subst c. rewrite group_by_community_snoc, keys_snoc.
  destruct p as [| x p'].
  - reflexivity.
  - rewrite IH; [| | discriminate].
    + simpl. destruct (eq_dec c0 c0); [reflexivity | contradiction].
    + intros c I. apply One. unfold values in *. rewrite map_app.
      apply in_or_app. now left.
Qed.

(** X11. With every key of the partition in one community and every
    node of the graph in the partition, [_position_nodes] is one plain
    call of the solver on the whole graph: it returns the solver's
    positions as they are and leaves the generator where that one call
    left it. *)
Theorem position_nodes_one_community_is_plain_layout g p s sc c0 :
  wf_graph g -> covers p g -> p <> [] ->
  (forall c, In c (values p) -> c = c0) ->
  _position_nodes B sc (mkWorld g p s)
  = (Ok (fst (spring_layout B g sc s)),
     mkWorld g p (snd (spring_layout B g sc s))).
Proof.
  intros Wg Hc Ne One. rewrite position_nodes_run.
  rewrite (group_one_community p c0 One Ne). simpl.
  rewrite (subgraph_whole g p Wg Hc).
  rewrite update_fresh; [reflexivity |].
  simpl. rewrite Hkeys. exact (proj1 Wg).
Qed.
End RaisePoint.

Section NoCrossing.
Variable B : Backend.

Lemma add_nodes_from_fresh ns : forall g,
  NoDup (nodes g ++ ns) ->
  add_nodes_from g ns = mkGraph (directed g) (nodes g ++ ns) (edge_data g).
Proof.
  unfold add_nodes_from.
  induction ns as [| n ns IH]; intros g ND; simpl.
  - rewrite app_nil_r. now destruct g.
  - assert (N : ~ In n (nodes g)).
    { apply NoDup_remove_2 in ND. intros I. apply ND. apply in_or_app. now left. }
    unfold add_node at 2. apply mem_false in N. rewrite N.
    rewrite IH; simpl.
    + now rewrite <- app_assoc.
    + now rewrite <- app_assoc.
Qed.

(** X12. When the partition knows both ends of every edge and no edge
    joins two different communities, one community or many,
    [_find_between_community_edges] returns the empty dictionary, and the
    meta-graph is the directed graph of the partition's communities with
    no edge at all. *)
Theorem no_crossing_edge_gives_edgeless_meta_graph g p s :
  (forall u v, In (u, v) (edges g) -> In u (keys p) /\ In v (keys p)) ->
  filter (inter p) (edges g) = [] ->
  _find_between_community_edges B (mkWorld g p s) = (Ok [], mkWorld g p s) /\
  hypergraph_of (py_set (values p)) [] = mkGraph true (py_set (values p)) [].
Proof.
  intros Tot E. apply covered_keys in Tot. split.
  - rewrite (find_between_run_ok B g p s Tot).
    now rewrite (between_fold_filter p (edges g) empty Tot), E.
  - unfold hypergraph_of. simpl.
    rewrite add_nodes_from_fresh; [reflexivity |]. simpl. apply NoDup_py_set.
Qed.
End NoCrossing.

(** *** The further properties at work *)

Section MoreExampleFacts.

Lemma example_edges_known :
  forall u v, In (u, v) (edges Example.g) ->
              In u (keys Example.p) /\ In v (keys Example.p).
Proof. exact (proj1 (covered_keys Example.p (edges Example.g)) eq_refl). Qed.

Lemma example_edges_known_inter :
  forall u v, In (u, v) (edges Example.g_inter) ->
              In u (keys Example.p) /\ In v (keys Example.p).
Proof. exact (proj1 (covered_keys Example.p (edges Example.g_inter)) eq_refl). Qed.

Lemma example_edges_known_intra :
  forall u v, In (u, v) (edges Example.g_intra) ->
              In u (keys Example.p) /\ In v (keys Example.p).
Proof. exact (proj1 (covered_keys Example.p (edges Example.g_intra)) eq_refl). Qed.

Lemma example_edges_known_short :
  forall u v, In (u, v) (edges Example.g) ->
              In u (keys Example.p_short) /\ In v (keys Example.p_short).
Proof. exact (proj1 (covered_keys Example.p_short (edges Example.g)) eq_refl). Qed.

Lemma example_wf_p_gap : wf_dict Example.p_gap.
Proof. repeat constructor; simpl; intuition discriminate. Qed.

Lemma example_wf_p_short : wf_dict Example.p_short.
Proof. repeat constructor; simpl; intuition discriminate. Qed.

Lemma example_one_value : forall c, In c (values Example.p_one) -> c = 10.
Proof.
  intros c H. simpl in H.
  repeat (destruct H as [<- | H]; [reflexivity |]). destruct H.
Qed.
End MoreExampleFacts.

Lemma find_between_raises_on_an_unknown_end_witness :
  exists k,
    _find_between_community_edges Toy.backend
      (@mkWorld Toy.backend Example.g Example.p_gap 0)
    = (Raise (KeyError k), @mkWorld Toy.backend Example.g Example.p_gap 0) /\
    get Example.p_gap k = None /\
    exists u' v', In (u', v') (edges Example.g) /\ (k = u' \/ k = v').
Proof.
  apply (find_between_raises_on_an_unknown_end Toy.backend
           Example.g Example.p_gap 0 2 3).
  - simpl. tauto.
  - right. reflexivity.
Defined.

Lemma find_between_files_each_crossing_edge_once_witness :
  exists d,
    _find_between_community_edges Toy.backend
      (@mkWorld Toy.backend Example.g Example.p 0)
    = (Ok d, @mkWorld Toy.backend Example.g Example.p 0) /\
    Permutation (concat (values d)) (filter (inter Example.p) (edges Example.g)) /\
    list_sum (map (fun kv => length (snd kv)) d)
    = length (filter (inter Example.p) (edges Example.g)).
Proof.
  exact (find_between_files_each_crossing_edge_once Toy.backend
           Example.g Example.p 0 example_edges_known).
Defined.

Lemma position_communities_sees_only_crossing_edges_witness :
  fst (_find_between_community_edges Toy.backend
         (@mkWorld Toy.backend Example.g Example.p 0))
  = fst (_find_between_community_edges Toy.backend
           (@mkWorld Toy.backend Example.g_inter Example.p 0)) /\
  fst (_position_communities Toy.backend 3
         (@mkWorld Toy.backend Example.g Example.p 0))
  = fst (_position_communities Toy.backend 3
           (@mkWorld Toy.backend Example.g_inter Example.p 0)) /\
  w_rng (snd (_position_communities Toy.backend 3
                (@mkWorld Toy.backend Example.g Example.p 0)))
  = w_rng (snd (_position_communities Toy.backend 3
                  (@mkWorld Toy.backend Example.g_inter Example.p 0))).
Proof.
  exact (position_communities_sees_only_crossing_edges Toy.backend
           Example.g Example.g_inter Example.p 0 3
           example_edges_known example_edges_known_inter eq_refl).
Defined.

Lemma position_communities_returns_iff_edge_ends_known_witness :
  (exists pc s',
     _position_communities Toy.backend 3
       (@mkWorld Toy.backend Example.g Example.p_short 0)
     = (Ok pc, @mkWorld Toy.backend Example.g Example.p_short s') /\
     keys pc = keys Example.p_short) /\
  (exists k,
     _position_communities Toy.backend 3
       (@mkWorld Toy.backend Example.g Example.p_gap 0)
     = (Raise (KeyError k), @mkWorld Toy.backend Example.g Example.p_gap 0) /\
     get Example.p_gap k = None).
Proof.
  split.
  - exact (proj1 (position_communities_returns_iff_edge_ends_known Toy.backend
                    toy_layout_keys Example.g Example.p_short 0 3
                    example_wf_p_short)
             example_edges_known_short).
  - apply (proj2 (position_communities_returns_iff_edge_ends_known Toy.backend
                    toy_layout_keys Example.g Example.p_gap 0 3
                    example_wf_p_gap) 2 3).
    + simpl. tauto.
    + right. reflexivity.
Defined.

Lemma meta_graph_shape_witness :
  exists d,
    _find_between_community_edges Toy.backend
      (@mkWorld Toy.backend Example.g Example.p 0)
    = (Ok d, @mkWorld Toy.backend Example.g Example.p 0) /\
    let H := hypergraph_of (py_set (values Example.p)) d in
    directed H = true /\
    NoDup (nodes H) /\
    (forall c, In c (nodes H) <-> In c (values Example.p)) /\
    NoDup (edges H) /\
    forall ci cj w,
      In (ci, cj, w) (edge_data H) ->
      ci <> cj /\ In ci (nodes H) /\ In cj (nodes H) /\
      w = Some (length (crossing_edges Example.p (edges Example.g) ci cj)) /\
      (1 <= length (crossing_edges Example.p (edges Example.g) ci cj))%nat.
Proof.
  exact (meta_graph_shape Toy.backend Example.g Example.p 0 example_edges_known).
Defined.

Lemma position_nodes_returns_offsets_of_known_graph_nodes_witness :
  exists pn s',
    _position_nodes Toy.backend 1
      (@mkWorld Toy.backend Example.g Example.p_gap 0)
    = (Ok pn, @mkWorld Toy.backend Example.g Example.p_gap s') /\
    wf_dict pn /\
    forall n, In n (keys pn) <-> In n (nodes Example.g) /\ In n (keys Example.p_gap).
Proof.
  exact (position_nodes_returns_offsets_of_known_graph_nodes Toy.backend
           Example.g Example.p_gap 0 1 toy_layout_keys).
Defined.

Lemma position_nodes_sees_only_inner_edges_witness :
  fst (_position_nodes Toy.backend 1 (@mkWorld Toy.backend Example.g Example.p 0))
  = fst (_position_nodes Toy.backend 1
           (@mkWorld Toy.backend Example.g_intra Example.p 0)) /\
  w_rng (snd (_position_nodes Toy.backend 1
                (@mkWorld Toy.backend Example.g Example.p 0)))
  = w_rng (snd (_position_nodes Toy.backend 1
                  (@mkWorld Toy.backend Example.g_intra Example.p 0))).
Proof.
  exact (position_nodes_sees_only_inner_edges Toy.backend
           Example.g Example.g_intra Example.p 0 1
           example_wf_p eq_refl eq_refl eq_refl).
Defined.

Lemma community_layout_returns_iff_partition_covers_graph_witness :
  (covers Example.p_gap Example.g <->
   exists pos w',
     community_layout Toy.backend
       (@mkWorld Toy.backend Example.g Example.p_gap 0) = (Ok pos, w')) /\
  (forall e w',
     community_layout Toy.backend
       (@mkWorld Toy.backend Example.g Example.p_gap 0) = (Raise e, w') ->
     exists k, e = KeyError k /\ In k (nodes Example.g) /\ get Example.p_gap k = None).
Proof.
  exact (community_layout_returns_iff_partition_covers_graph Toy.backend
           toy_layout_keys Example.g Example.p_gap 0
           example_wf_g example_wf_p_gap).
Defined.

Lemma community_layout_raise_point_witness :
  community_layout Toy.backend (@mkWorld Toy.backend Example.g Example.p_short 0)
  = (Raise (KeyError 5),
     snd (bind (_position_communities Toy.backend 3)
            (fun _ => _position_nodes Toy.backend 1)
            (@mkWorld Toy.backend Example.g Example.p_short 0))).
Proof.
  apply (proj2 (community_layout_raise_point Toy.backend toy_layout_keys
                  Example.g Example.p_short 0
                  example_wf_p_short (proj1 example_wf_g))
           example_edges_known_short [1; 2; 3; 4] 5 []).
  - reflexivity.
  - intros m H. simpl in H |- *. intuition.
  - reflexivity.
Defined.

Lemma position_nodes_one_community_is_plain_layout_witness :
  _position_nodes Toy.backend 1 (@mkWorld Toy.backend Example.g Example.p_one 0)
  = (Ok (fst (spring_layout Toy.backend Example.g 1 0)),
     @mkWorld Toy.backend Example.g Example.p_one
       (snd (spring_layout Toy.backend Example.g 1 0))).
Proof.
  apply (position_nodes_one_community_is_plain_layout Toy.backend
           toy_layout_keys Example.g Example.p_one 0 1 10).
  - exact example_wf_g.
  - exact example_covers_p_one.
  - discriminate.
  - exact example_one_value.
Defined.

Lemma no_crossing_edge_gives_edgeless_meta_graph_witness :
  _find_between_community_edges Toy.backend
    (@mkWorld Toy.backend Example.g_intra Example.p 0)
  = (Ok [], @mkWorld Toy.backend Example.g_intra Example.p 0) /\
  hypergraph_of (py_set (values Example.p)) []
  = mkGraph true (py_set (values Example.p)) [].
Proof.
  exact (no_crossing_edge_gives_edgeless_meta_graph Toy.backend
           Example.g_intra Example.p 0 example_edges_known_intra eq_refl).
Defined.
